(** * The hand-rolled dependency-injection container (DI-CustomFramework)

    A shallow embedding of [class DIContainer] and of the [main] that wires
    the MVC greeting application with it, followed by the properties of
    registration and resolution.

    Modelling decisions, each taken from the C++ text:

    - [creators_] is a [std::map<std::string, std::function<...>>]: a finite
      map with unique keys, here a [gmap string creator].
    - The two lambdas stored in the map capture [this] and the template
      arguments only.  They are represented by the data they capture
      ([creator]); invoking one reads the registry as it is at the time of
      the invocation, exactly as a closure over [this] does.
    - [typeid(T).name()] is implementation-defined: it is the section
      variable [type_name].
    - [std::make_shared<T>(resolve<Args>()...)] is a function call whose
      arguments are the expanded pack.  C++ leaves the order in which the
      arguments of a call are evaluated unspecified (they are indeterminately
      sequenced).  The order the implementation picks for the instantiation
      [<T, Args...>] is the section variable [arg_order]: the list of
      argument positions in the order they are evaluated.
    - Objects live in a heap that records every allocation in order; a
      location is the allocation's index and is never reused, which is what
      object identity means for handles that are kept alive.
    - Recursion depth is bounded by a [fuel] argument; running out of it at
      every depth is the model's account of unbounded recursion. *)

From stdpp Require Import gmap strings list relations.

(** ** Exceptions and outcomes

    A call returns, throws, or has not ended within the nesting depth it was
    given.  An exception unwinds the handles built so far, so only a
    returning call hands a heap on. *)

Inductive exception : Type :=
| runtime_error (what : string).

Inductive outcome (A : Type) : Type :=
| Ret (a : A)
| Throw (e : exception)
| OutOfFuel.

Arguments Ret {A} a.
Arguments Throw {A} e.
Arguments OutOfFuel {A}.

#[global] Instance outcome_ret : MRet outcome := λ A a, Ret a.

#[global] Instance outcome_bind : MBind outcome := λ A B k m,
  match m with
  | Ret a => k a
  | Throw e => Throw e
  | OutOfFuel => OutOfFuel
  end.

(** ** Handles, objects and the heap *)

Inductive shared_ptr : Type :=
| nullptr
| ptr (l : nat).

#[global] Instance shared_ptr_eq_dec : EqDecision shared_ptr.
Proof. solve_decision. Defined.

Section Container.

Context {ty : Type}.

(** An object remembers its dynamic class and the handles its constructor
    received ([Controller] stores them in [model_], [view_], [logger_]). *)
Record object : Type := Object {
  obj_class : ty;
  obj_ctor_args : list shared_ptr
}.

Definition heap : Type := list object.

(** [std::make_shared<T>(args...)]: one fresh allocation, never null. *)
Definition make_shared (T : ty) (args : list shared_ptr) (h : heap)
  : shared_ptr * heap :=
  (ptr (length h), h ++ [Object T args]).

(** [std::static_pointer_cast<T>]: the same address under another static
    type; nothing is checked. *)
Definition static_pointer_cast (T : ty) (p : shared_ptr) : shared_ptr := p.

(** What a handle points to. *)
Definition deref (h : heap) (p : shared_ptr) : option object :=
  match p with
  | nullptr => None
  | ptr l => h !! l
  end.

(** ** The registry *)

(** The two closures of the class, by what they capture. *)
Inductive creator : Type :=
| default_creator (T : ty)
    (* [this]() { return std::make_shared<T>(); } *)
| dependent_creator (T : ty) (Args : list ty).
    (* [this]() { return std::make_shared<T>(resolve<Args>()...); } *)

Record DIContainer : Type := mkDIContainer {
  creators_ : gmap string creator
}.

Definition empty_container : DIContainer := mkDIContainer ∅.

Variable type_name : ty → string.
Variable arg_order : ty → list ty → list nat.

Definition registerType (T : ty) (c : DIContainer) : DIContainer :=
  mkDIContainer (<[type_name T := default_creator T]> (creators_ c)).

Definition registerTypeWithDependencies (T : ty) (Args : list ty)
    (c : DIContainer) : DIContainer :=
  mkDIContainer (<[type_name T := dependent_creator T Args]> (creators_ c)).

Definition unregistered : exception :=
  runtime_error "Type not registered in DI container.".

(** Evaluation of the expanded pack [resolve<Args>()...]: the positions in
    [order] are evaluated one after the other, each by [rec] (the nested
    [resolve]); the first one that does not return ends the evaluation.
    The result maps each position to the handle obtained for it. *)
Fixpoint resolve_args (rec : ty → heap → outcome (shared_ptr * heap))
    (Args : list ty) (order : list nat) (h : heap)
  : outcome (gmap nat shared_ptr * heap) :=
  match order with
  | [] => Ret (∅, h)
  | i :: order' =>
      match Args !! i with
      | None => resolve_args rec Args order' h
      | Some D =>
          '(p, h1) ← rec D h;
          '(m, h2) ← resolve_args rec Args order' h1;
          Ret (<[i := p]> m, h2)
      end
  end.

(** The argument list handed to the constructor: position [j] receives the
    handle evaluated for position [j]. *)
Definition ctor_args (m : gmap nat shared_ptr) (n : nat) : list shared_ptr :=
  (λ j, default nullptr (m !! j)) <$> seq 0 n.

(** Invocation [it->second()] of a stored closure. *)
Definition invoke (rec : ty → heap → outcome (shared_ptr * heap))
    (cr : creator) (h : heap) : outcome (shared_ptr * heap) :=
  match cr with
  | default_creator T => Ret (make_shared T [] h)
  | dependent_creator T Args =>
      '(m, h') ← resolve_args rec Args (arg_order T Args) h;
      Ret (make_shared T (ctor_args m (length Args)) h')
  end.

(** [resolve<T>()].  One unit of fuel per nested call. *)
Fixpoint resolve (fuel : nat) (c : DIContainer) (T : ty) (h : heap)
  : outcome (shared_ptr * heap) :=
  match fuel with
  | 0 => OutOfFuel
  | S fuel' =>
      match creators_ c !! type_name T with
      | Some cr =>
          '(p, h') ← invoke (resolve fuel' c) cr h;
          Ret (static_pointer_cast T p, h')
      | None => Throw unregistered
      end
  end.

(** ** The dependency graph of a registry *)

Definition creator_args (cr : creator) : list ty :=
  match cr with
  | default_creator _ => []
  | dependent_creator _ Args => Args
  end.

Definition registered (c : DIContainer) (T : ty) : Prop :=
  is_Some (creators_ c !! type_name T).

(** [T] depends on [U]: the closure stored under [T]'s key resolves [U]. *)
Definition depends_on (c : DIContainer) (T U : ty) : Prop :=
  ∃ cr, creators_ c !! type_name T = Some cr ∧ U ∈ creator_args cr.

Definition reachable (c : DIContainer) : ty → ty → Prop :=
  rtc (depends_on c).

(** Every type the resolution of [T] can ask for has a closure. *)
Definition deps_registered (c : DIContainer) (T : ty) : Prop :=
  ∀ U, reachable c T U → registered c U.

Definition on_cycle (c : DIContainer) (U : ty) : Prop :=
  tc (depends_on c) U U.

Definition acyclic_from (c : DIContainer) (T : ty) : Prop :=
  ∀ U, reachable c T U → ¬ on_cycle c U.

(** A cheap sufficient test for [acyclic_from]: walking the dependency
    lists from [T] ends within [fuel] nested steps. *)
Fixpoint acyclic_check (fuel : nat) (c : DIContainer) (T : ty) : bool :=
  match fuel with
  | 0 => false
  | S fuel' =>
      match creators_ c !! type_name T with
      | Some cr => forallb (acyclic_check fuel' c) (creator_args cr)
      | None => true
      end
  end.

(** ** Registries the public interface can build *)

Definition creator_class (cr : creator) : ty :=
  match cr with
  | default_creator T => T
  | dependent_creator T _ => T
  end.

Inductive constructed : DIContainer → Prop :=
| constructed_empty :
    constructed empty_container
| constructed_registerType T c :
    constructed c → constructed (registerType T c)
| constructed_registerTypeWithDependencies T Args c :
    constructed c → constructed (registerTypeWithDependencies T Args c).

(** Every handle [rec] returns is a non-null location allocated during the
    call, on a heap that only grew. *)
Definition allocates_fresh (rec : ty → heap → outcome (shared_ptr * heap))
  : Prop :=
  ∀ D h p h', rec D h = Ret (p, h') →
    h `prefix_of` h' ∧ ∃ l, p = ptr l ∧ length h ≤ l < length h'.

(** ** The factory as the specification words it

    "first resolves each Di, in left-to-right declared order, then
    constructs T by passing the n resolved instances to its constructor in
    that order". *)
Fixpoint spec_resolve_deps (rec : ty → heap → outcome (shared_ptr * heap))
    (Ds : list ty) (h : heap) : outcome (list shared_ptr * heap) :=
  match Ds with
  | [] => Ret ([], h)
  | D :: Ds' =>
      '(p, h1) ← rec D h;
      '(ps, h2) ← spec_resolve_deps rec Ds' h1;
      Ret (p :: ps, h2)
  end.

Definition spec_factory (rec : ty → heap → outcome (shared_ptr * heap))
    (T : ty) (Ds : list ty) (h : heap) : outcome (shared_ptr * heap) :=
  '(ps, h') ← spec_resolve_deps rec Ds h;
  Ret (make_shared T ps h').

End Container.

Arguments object : clear implicits.
Arguments heap : clear implicits.
Arguments creator : clear implicits.
Arguments DIContainer : clear implicits.

(** ** Evaluation orders *)

Definition left_to_right {ty : Type} (T : ty) (Args : list ty) : list nat :=
  seq 0 (length Args).

Definition right_to_left {ty : Type} (T : ty) (Args : list ty) : list nat :=
  reverse (seq 0 (length Args)).

(** ** C++ types and the classes of MVC.h *)

Inductive cpp_type : Type :=
| class_ (name : string)
| const_ (T : cpp_type).

(** One admissible [typeid(T).name()]: the class name.  Top-level
    const-qualification is ignored by [typeid] in every implementation. *)
Fixpoint typeid_name (T : cpp_type) : string :=
  match T with
  | class_ name => name
  | const_ T' => typeid_name T'
  end.

Definition Logger : cpp_type := class_ "Logger".
Definition Configuration : cpp_type := class_ "Configuration".
Definition Model : cpp_type := class_ "Model".
Definition View : cpp_type := class_ "View".
Definition Controller : cpp_type := class_ "Controller".

Definition mvc_classes : list cpp_type :=
  [Logger; Configuration; Model; View; Controller].

(** ** [main] of the custom-framework variant

    The registrations and the five [resolve] calls.  The two statements that
    follow them in the source ([logger->log(...)], [controller->run()]) do
    console I/O only and leave the handles as they are. *)

Record main_handles : Type := mkHandles {
  config : shared_ptr;
  logger : shared_ptr;
  model : shared_ptr;
  view : shared_ptr;
  controller : shared_ptr
}.

Section Main.

Variable type_name : cpp_type → string.
Variable arg_order : cpp_type → list cpp_type → list nat.

Definition main_container : DIContainer cpp_type :=
  let container := empty_container in
  let container := registerType type_name Logger container in
  let container := registerType type_name Model container in
  let container := registerType type_name View container in
  let container := registerType type_name Configuration container in
  registerTypeWithDependencies type_name Controller [Model; View; Logger]
    container.

Definition main (fuel : nat) : outcome (main_handles * heap cpp_type) :=
  let container := main_container in
  let res := resolve type_name arg_order fuel container in
  '(config, h) ← res Configuration [];
  '(logger, h) ← res Logger h;
  '(model, h) ← res Model h;
  '(view, h) ← res View h;
  '(controller, h) ← res Controller h;
  Ret (mkHandles config logger model view controller, h).

End Main.

(** ** Further registrations used below *)

(** [struct Self { Self(std::shared_ptr<Self>); };] and a class that is
    never registered. *)
Definition Self : cpp_type := class_ "Self".
Definition Missing : cpp_type := class_ "Missing".

(** [container.registerTypeWithDependencies<Self, Self>();] *)
Definition self_dependent : DIContainer cpp_type :=
  registerTypeWithDependencies typeid_name Self [Self] empty_container.

(** [struct Node { Node(std::shared_ptr<Missing>, std::shared_ptr<Node>); };]
    [container.registerTypeWithDependencies<Node, Missing, Node>();] *)
Definition Node : cpp_type := class_ "Node".

Definition cycle_behind_missing : DIContainer cpp_type :=
  registerTypeWithDependencies typeid_name Node [Missing; Node]
    empty_container.

(** The same class with its constructor parameters swapped:
    [container.registerTypeWithDependencies<Node, Node, Missing>();] *)
Definition cycle_before_missing : DIContainer cpp_type :=
  registerTypeWithDependencies typeid_name Node [Node; Missing]
    empty_container.

(** The scenario in which [Controller] is registered with its three
    dependencies and [Logger] never is. *)
Definition container_without_logger : DIContainer cpp_type :=
  registerTypeWithDependencies typeid_name Controller [Model; View; Logger]
    (registerType typeid_name View
       (registerType typeid_name Model empty_container)).

(** ** Sequences of registration calls *)

Section Registrations.

Context {ty : Type}.
Variable type_name : ty → string.

(** One call of [registerType<T>()] or of
    [registerTypeWithDependencies<T, Args...>()]. *)
Inductive registration : Type :=
| register_simple (T : ty)
| register_with_dependencies (T : ty) (Args : list ty).

Definition registration_key (r : registration) : string :=
  match r with
  | register_simple T => type_name T
  | register_with_dependencies T _ => type_name T
  end.

Definition apply_registration (c : DIContainer ty) (r : registration)
  : DIContainer ty :=
  match r with
  | register_simple T => registerType type_name T c
  | register_with_dependencies T Args =>
      registerTypeWithDependencies type_name T Args c
  end.

(** The calls of [rs], made one after the other on [c]. *)
Definition apply_registrations (rs : list registration) (c : DIContainer ty)
  : DIContainer ty :=
  foldl apply_registration c rs.

(** How many objects [resolve<T>] asks [make_shared] for when every nested
    call returns: one for [T] and, for each dependency, those of its own
    resolution. *)
Fixpoint objects_built (fuel : nat) (c : DIContainer ty) (T : ty) : nat :=
  match fuel with
  | 0 => 0
  | S fuel' =>
      match creators_ c !! type_name T with
      | Some cr => S (sum_list (objects_built fuel' c <$> creator_args cr))
      | None => 0
      end
  end.

End Registrations.

Arguments registration : clear implicits.

(** ** The classes of MVC.h and MVC.cpp

    [std::cin] is the text still to be read, [std::cout] the text written so
    far.  The one [std::string] member an object may have ([Model::name_],
    [Configuration::app_name]) lives in a store keyed by the object's
    location, so that two handles to one object see the same member.  A
    member function called through a handle that is null, dangling or of
    another class has no defined behaviour: the call yields [None]. *)

#[global] Instance cpp_type_eq_dec : EqDecision cpp_type.
Proof. solve_decision. Defined.

Record console : Type := mkConsole {
  cin : string;
  cout : string
}.

Definition newline : Ascii.ascii := Ascii.ascii_of_nat 10.

(** The string literal ["\n"]. *)
Definition nl : string := String newline "".

(** [std::cout << s] *)
Definition write (s : string) (io : console) : console :=
  mkConsole (cin io) (cout io +:+ s).

(** [std::getline(std::cin, name)] on an empty [name]: the characters up to
    the first newline, which is consumed and not stored; everything that is
    left when there is none. *)
Fixpoint getline (input : string) : string * string :=
  match input with
  | "" => ("", "")
  | String ch rest =>
      if decide (ch = newline) then ("", rest)
      else let '(line, rest') := getline rest in (String ch line, rest')
  end.

Record world : Type := mkWorld {
  objects : heap cpp_type;
  members : gmap nat string;
  io : console
}.

Definition with_io (f : console → console) (w : world) : world :=
  mkWorld (objects w) (members w) (f (io w)).

(** The object a member function of class [T] called through [p] runs on. *)
Definition receiver (T : cpp_type) (p : shared_ptr) (w : world)
  : option nat :=
  match p with
  | nullptr => None
  | ptr l =>
      o ← objects w !! l;
      if decide (obj_class o = T) then Some l else None
  end.

(** [void Logger::log(const std::string& message)] *)
Definition Logger_log (this : shared_ptr) (message : string) (w : world)
  : option world :=
  _ ← receiver Logger this w;
  Some (with_io (λ io, write nl (write message (write "[LOG]: " io))) w).

(** [Configuration() : app_name("HelloApp")], read as [config->app_name]. *)
Definition Configuration_app_name (this : shared_ptr) (w : world)
  : option string :=
  l ← receiver Configuration this w;
  Some (default "HelloApp" (members w !! l)).

(** [void Model::setName(const std::string& name)] *)
Definition Model_setName (this : shared_ptr) (name : string) (w : world)
  : option world :=
  l ← receiver Model this w;
  Some (mkWorld (objects w) (<[l := name]> (members w)) (io w)).

(** [std::string Model::getName() const]; a [Model] starts with an empty
    [name_]. *)
Definition Model_getName (this : shared_ptr) (w : world) : option string :=
  l ← receiver Model this w;
  Some (default "" (members w !! l)).

(** [std::string View::askForName()] *)
Definition View_askForName (this : shared_ptr) (w : world)
  : option (string * world) :=
  _ ← receiver View this w;
  let io1 := write "Enter your name: " (io w) in
  let '(name, rest) := getline (cin io1) in
  Some (name, mkWorld (objects w) (members w) (mkConsole rest (cout io1))).

(** [void View::displayGreeting(const std::string& name)] *)
Definition View_displayGreeting (this : shared_ptr) (name : string)
    (w : world) : option world :=
  _ ← receiver View this w;
  Some (with_io (λ io, write nl (write "!" (write name (write "Hello " io))))
          w).

(** [void Controller::run() const], on a controller whose members are
    [model_], [view_] and [logger_]. *)
Definition Controller_run (model_ view_ logger_ : shared_ptr) (w : world)
  : option world :=
  w ← Logger_log logger_ "Starting application..." w;
  '(name, w) ← View_askForName view_ w;
  w ← Model_setName model_ name w;
  name' ← Model_getName model_ w;
  w ← View_displayGreeting view_ name' w;
  Logger_log logger_ "Application finished." w.

(** [controller->run()]: the members are the handles the constructor
    received. *)
Definition Controller_run_at (this : shared_ptr) (w : world) : option world :=
  l ← receiver Controller this w;
  o ← objects w !! l;
  match obj_ctor_args o with
  | [model_; view_; logger_] => Controller_run model_ view_ logger_ w
  | _ => None
  end.

(** ** [main] with manual injection (DI_Manuallly.cpp)

    [config] and [controller] are local objects; the other three are made
    with [std::make_shared].  The result keeps the handles [logger],
    [model] and [view] of [main]. *)
Definition manual_main (input : string)
  : option (shared_ptr * shared_ptr * shared_ptr * world) :=
  let config_app_name := "HelloApp" in
  let '(logger, h) := make_shared Logger [] [] in
  let '(model, h) := make_shared Model [] h in
  let '(view, h) := make_shared View [] h in
  let w := mkWorld h ∅ (mkConsole input "") in
  w ← Logger_log logger ("App Name: " +:+ config_app_name +:+ " - Manual DI")
        w;
  w ← Controller_run model view logger w;
  Some (logger, model, view, w).

(** ** [main] of the custom-framework variant, to its end

    The five [resolve] calls of [main], then the two statements that use the
    handles. *)
Definition main_program (type_name : cpp_type → string)
    (arg_order : cpp_type → list cpp_type → list nat) (fuel : nat)
    (input : string) : outcome (option (main_handles * world)) :=
  '(hs, h) ← main type_name arg_order fuel;
  Ret (let w := mkWorld h ∅ (mkConsole input "") in
       app_name ← Configuration_app_name (config hs) w;
       w ← Logger_log (logger hs)
             ("App Name: " +:+ app_name +:+ " - Custom DI Framework") w;
       w ← Controller_run_at (controller hs) w;
       Some (hs, w)).

(** ** A diamond of dependencies

    [Top(Left, Right)], [Left(Bottom)], [Right(Bottom)], [Bottom()]. *)
Definition diamond : DIContainer cpp_type :=
  registerTypeWithDependencies typeid_name (class_ "Top")
    [class_ "Left"; class_ "Right"]
    (registerTypeWithDependencies typeid_name (class_ "Left")
       [class_ "Bottom"]
       (registerTypeWithDependencies typeid_name (class_ "Right")
          [class_ "Bottom"]
          (registerType typeid_name (class_ "Bottom") empty_container))).

(** * Properties *)

(** ** The outcome monad *)

Lemma bind_Ret_inv {A B} (m : outcome A) (k : A → outcome B) (b : B) :
  m ≫= k = Ret b → ∃ a, m = Ret a ∧ k a = Ret b.
Proof. destruct m as [a| |]; simpl; [eauto | done | done]. Qed.

Lemma bind_Throw_inv {A B} (m : outcome A) (k : A → outcome B) e :
  m ≫= k = Throw e → m = Throw e ∨ ∃ a, m = Ret a ∧ k a = Throw e.
Proof.
  destruct m as [a| |]; simpl; [eauto | | done]. intros [= ->]; auto.
Qed.

Lemma bind_OutOfFuel_inv {A B} (m : outcome A) (k : A → outcome B) :
  m ≫= k = OutOfFuel → m = OutOfFuel ∨ ∃ a, m = Ret a ∧ k a = OutOfFuel.
Proof. destruct m as [a| |]; simpl; [eauto | done | auto]. Qed.

Section ContainerFacts.

Context {ty : Type}.
Variable type_name : ty → string.
Variable arg_order : ty → list ty → list nat.

Implicit Types (c : DIContainer ty) (T U D : ty) (h : heap ty).
Implicit Types (rec : ty → heap ty → outcome (shared_ptr * heap ty)).

Local Abbreviation resolve_left_to_right :=
  (resolve type_name left_to_right).
Local Abbreviation resolve := (resolve type_name arg_order).
Local Abbreviation invoke_left_to_right := (invoke left_to_right).
Local Abbreviation invoke := (invoke arg_order).
Local Abbreviation depends_on := (depends_on type_name).
Local Abbreviation reachable := (reachable type_name).
Local Abbreviation registered := (registered type_name).
Local Abbreviation deps_registered := (deps_registered type_name).
Local Abbreviation on_cycle := (on_cycle type_name).
Local Abbreviation acyclic_from := (acyclic_from type_name).

(** *** One call of [resolve] *)

Lemma resolve_unregistered fuel c T h :
  creators_ c !! type_name T = None →
  resolve (S fuel) c T h = Throw unregistered.
Proof. intros Hk. simpl. by rewrite Hk. Qed.

Lemma resolve_registered fuel c T cr h :
  creators_ c !! type_name T = Some cr →
  resolve (S fuel) c T h = invoke (resolve fuel c) cr h.
Proof.
  intros Hk. simpl. rewrite Hk.
  destruct (invoke _ cr h) as [[p h']| |]; reflexivity.
Qed.

Lemma resolve_default fuel c T T' h :
  creators_ c !! type_name T = Some (default_creator T') →
  resolve (S fuel) c T h = Ret (ptr (length h), h ++ [Object T' []]).
Proof. intros Hk. by rewrite (resolve_registered _ _ _ _ _ Hk). Qed.

Lemma invoke_dependent rec T' Args h :
  invoke rec (dependent_creator T' Args) h
  = '(m, h') ← resolve_args rec Args (arg_order T' Args) h;
    Ret (make_shared T' (ctor_args m (length Args)) h').
Proof. reflexivity. Qed.

(** *** The pack expansion *)

Lemma resolve_args_Ret rec Args order h m h' :
  resolve_args rec Args order h = Ret (m, h') →
  (allocates_fresh rec → h `prefix_of` h') ∧
  ∀ i D, i ∈ order → Args !! i = Some D →
    ∃ p hi hi', rec D hi = Ret (p, hi') ∧
      (NoDup order → m !! i = Some p) ∧
      (allocates_fresh rec → h `prefix_of` hi ∧ hi' `prefix_of` h').
Proof.
  revert h m h'. induction order as [|i0 order IH]; intros h m h' Hr.
  { simpl in Hr. injection Hr as <- <-. split; [done|].
    intros i D Hi. by apply elem_of_nil in Hi. }
  simpl in Hr. destruct (Args !! i0) as [D0|] eqn:HD0.
  - apply bind_Ret_inv in Hr as ([p0 h1] & Hrec & Hr).
    apply bind_Ret_inv in Hr as ([m1 h2] & Hrest & Hr).
    injection Hr as <- <-.
    destruct (IH _ _ _ Hrest) as [Hpre IHpos].
    split.
    { intros Hf. etrans; [apply (Hf _ _ _ _ Hrec)|by apply Hpre]. }
    intros i D Hi HD. apply elem_of_cons in Hi as [->|Hi].
    + exists p0, h, h1. split; [congruence|]. split.
      * intros _. apply lookup_insert_eq.
      * intros Hf. split; [done|by apply Hpre].
    + destruct (IHpos i D Hi HD) as (p & hi & hi' & Hp & Hm & Hh).
      exists p, hi, hi'. split; [done|]. split.
      * intros Hnd. apply NoDup_cons in Hnd as [Hni Hnd].
        rewrite lookup_insert_ne; [by apply Hm|]. intros ->. done.
      * intros Hf. destruct (Hh Hf) as [H1 H2]. split; [|done].
        etrans; [apply (Hf _ _ _ _ Hrec)|done].
  - destruct (IH _ _ _ Hr) as [Hpre IHpos]. split; [done|].
    intros i D Hi HD. apply elem_of_cons in Hi as [->|Hi]; [congruence|].
    destruct (IHpos i D Hi HD) as (p & hi & hi' & Hp & Hm & Hh).
    exists p, hi, hi'. split; [done|]. split; [|done].
    intros Hnd. apply NoDup_cons in Hnd as [_ Hnd]. by apply Hm.
Qed.

Lemma resolve_args_Throw rec Args order h e :
  resolve_args rec Args order h = Throw e →
  ∃ i D hi, i ∈ order ∧ Args !! i = Some D ∧ rec D hi = Throw e.
Proof.
  revert h. induction order as [|i0 order IH]; intros h Hr; [done|].
  simpl in Hr. destruct (Args !! i0) as [D0|] eqn:HD0.
  - apply bind_Throw_inv in Hr as [Hr|([p0 h1] & Hrec & Hr)].
    { exists i0, D0, h. split; [left|done]. }
    apply bind_Throw_inv in Hr as [Hr|([m1 h2] & _ & Hr)]; [|done].
    destruct (IH _ Hr) as (i & D & hi & Hi & HD & Hrec').
    exists i, D, hi. split; [by right|done].
  - destruct (IH _ Hr) as (i & D & hi & Hi & HD & Hrec').
    exists i, D, hi. split; [by right|done].
Qed.

Lemma resolve_args_OutOfFuel rec Args order h :
  resolve_args rec Args order h = OutOfFuel →
  ∃ i D hi, i ∈ order ∧ Args !! i = Some D ∧ rec D hi = OutOfFuel.
Proof.
  revert h. induction order as [|i0 order IH]; intros h Hr; [done|].
  simpl in Hr. destruct (Args !! i0) as [D0|] eqn:HD0.
  - apply bind_OutOfFuel_inv in Hr as [Hr|([p0 h1] & Hrec & Hr)].
    { exists i0, D0, h. split; [left|done]. }
    apply bind_OutOfFuel_inv in Hr as [Hr|([m1 h2] & _ & Hr)]; [|done].
    destruct (IH _ Hr) as (i & D & hi & Hi & HD & Hrec').
    exists i, D, hi. split; [by right|done].
  - destruct (IH _ Hr) as (i & D & hi & Hi & HD & Hrec').
    exists i, D, hi. split; [by right|done].
Qed.

(** Two resolvers that agree wherever the first one ends give the same
    pack evaluation wherever the first one ends. *)
Lemma resolve_args_mono rec rec' Args order h r :
  (∀ D h0 r0, rec D h0 = r0 → r0 ≠ OutOfFuel → rec' D h0 = r0) →
  resolve_args rec Args order h = r → r ≠ OutOfFuel →
  resolve_args rec' Args order h = r.
Proof.
  intros Hmono. revert h r.
  induction order as [|i0 order IH]; intros h r Hr Hne; [done|].
  simpl in *. destruct (Args !! i0) as [D0|]; [|by apply IH].
  destruct (rec D0 h) as [[p0 h1]| |] eqn:Hrec; simpl in Hr.
  - rewrite (Hmono _ _ _ Hrec) by done. simpl.
    destruct (resolve_args rec Args order h1) as [[m1 h2]| |] eqn:Hrest;
      simpl in Hr.
    + rewrite (IH _ _ Hrest) by done. done.
    + rewrite (IH _ _ Hrest) by done. done.
    + congruence.
  - rewrite (Hmono _ _ _ Hrec) by done. done.
  - congruence.
Qed.

(** *** Fuel *)

Lemma invoke_mono rec rec' cr h r :
  (∀ D h0 r0, rec D h0 = r0 → r0 ≠ OutOfFuel → rec' D h0 = r0) →
  invoke rec cr h = r → r ≠ OutOfFuel → invoke rec' cr h = r.
Proof.
  intros Hmono. destruct cr as [T'|T' Args]; [done|]. simpl.
  destruct (resolve_args rec _ _ h) as [[m h']| |] eqn:Hargs;
    simpl; intros <- Hne; try done;
    by rewrite (resolve_args_mono _ _ _ _ _ _ Hmono Hargs).
Qed.

Lemma resolve_mono fuel c T h r :
  resolve fuel c T h = r → r ≠ OutOfFuel → resolve (S fuel) c T h = r.
Proof.
  revert T h r. induction fuel as [|fuel IH]; intros T h r Hr Hne.
  { simpl in Hr. congruence. }
  destruct (creators_ c !! type_name T) as [cr|] eqn:Hk.
  - rewrite (resolve_registered _ _ _ _ _ Hk) in Hr.
    rewrite (resolve_registered _ _ _ _ _ Hk).
    by apply (invoke_mono (resolve fuel c)).
  - rewrite resolve_unregistered in Hr by done.
    by rewrite resolve_unregistered.
Qed.

Lemma resolve_fuel_le fuel fuel' c T h r :
  fuel ≤ fuel' → resolve fuel c T h = r → r ≠ OutOfFuel →
  resolve fuel' c T h = r.
Proof.
  induction 1 as [|fuel' _ IH]; [done|].
  intros Hr Hne. apply resolve_mono; auto.
Qed.

(** *** Fresh allocation *)

Lemma resolve_allocates_fresh fuel c : allocates_fresh (resolve fuel c).
Proof.
  induction fuel as [|fuel IH]; intros T h p h' Hr; [done|].
  destruct (creators_ c !! type_name T) as [cr|] eqn:Hk.
  2:{ by rewrite resolve_unregistered in Hr. }
  rewrite (resolve_registered _ _ _ _ _ Hk) in Hr.
  destruct cr as [T'|T' Args]; simpl in Hr.
  - injection Hr as <- <-. split; [by apply prefix_app_r|].
    exists (length h). rewrite length_app. simpl. split; [done|lia].
  - apply bind_Ret_inv in Hr as ([m hm] & Hargs & Hr).
    injection Hr as <- <-.
    apply resolve_args_Ret in Hargs as [Hpre _]. specialize (Hpre IH).
    split; [by apply prefix_app_r|].
    exists (length hm). rewrite length_app. simpl.
    apply prefix_length in Hpre. split; [done|lia].
Qed.

(** *** The shape of a returned object *)

Lemma ctor_args_length m n : length (ctor_args m n) = n.
Proof. unfold ctor_args. by rewrite length_fmap, length_seq. Qed.

Lemma ctor_args_lookup m n j :
  j < n → ctor_args m n !! j = Some (default nullptr (m !! j)).
Proof.
  intros Hj. unfold ctor_args. rewrite list_lookup_fmap.
  by rewrite lookup_seq_lt.
Qed.

Section ValidOrder.

Hypothesis arg_order_perm :
  ∀ T Args, arg_order T Args ≡ₚ seq 0 (length Args).

Lemma arg_order_NoDup T Args : NoDup (arg_order T Args).
Proof. rewrite arg_order_perm. apply NoDup_seq. Qed.

Lemma arg_order_complete T Args j D :
  Args !! j = Some D → j ∈ arg_order T Args.
Proof.
  intros HD. rewrite arg_order_perm. apply elem_of_seq.
  apply lookup_lt_Some in HD. lia.
Qed.

Lemma invoke_dependent_Ret rec T' Args h p h' :
  invoke rec (dependent_creator T' Args) h = Ret (p, h') →
  ∃ hm ps, p = ptr (length hm) ∧ h' = hm ++ [Object T' ps] ∧
    length ps = length Args ∧
    (allocates_fresh rec → h `prefix_of` hm) ∧
    ∀ j D, Args !! j = Some D →
      ∃ pj hj hj', ps !! j = Some pj ∧ rec D hj = Ret (pj, hj') ∧
        (allocates_fresh rec → h `prefix_of` hj ∧ hj' `prefix_of` hm).
Proof.
  simpl. intros Hr.
  apply bind_Ret_inv in Hr as ([m hm] & Hargs & Hr). injection Hr as <- <-.
  apply resolve_args_Ret in Hargs as [Hpre Hpos].
  exists hm, (ctor_args m (length Args)).
  split; [done|]. split; [done|]. split; [apply ctor_args_length|].
  split; [done|]. intros j D HD.
  destruct (Hpos j D (arg_order_complete T' _ _ _ HD) HD)
    as (pj & hj & hj' & Hrec & Hm & Hh).
  exists pj, hj, hj'. split; [|done].
  rewrite ctor_args_lookup by (by apply lookup_lt_Some in HD).
  by rewrite (Hm (arg_order_NoDup _ _)).
Qed.

(** *** What a successful resolution says about the graph *)

Lemma resolve_Ret_step fuel c T U h p h' :
  resolve (S fuel) c T h = Ret (p, h') → depends_on c T U →
  ∃ hU pU hU', resolve fuel c U hU = Ret (pU, hU').
Proof.
  intros Hr (cr & Hk & HU).
  rewrite (resolve_registered _ _ _ _ _ Hk) in Hr.
  destruct cr as [T'|T' Args]; simpl in HU; [by apply elem_of_nil in HU|].
  apply list_elem_of_lookup in HU as [j Hj].
  apply invoke_dependent_Ret in Hr as (hm & ps & _ & _ & _ & _ & Hpos).
  destruct (Hpos j U Hj) as (pj & hj & hj' & _ & Hrec & _). eauto.
Qed.

Lemma resolve_Ret_tc c T U :
  tc (depends_on c) T U →
  ∀ fuel h p h', resolve fuel c T h = Ret (p, h') →
  ∃ fuel' hU pU hU', fuel' < fuel ∧ resolve fuel' c U hU = Ret (pU, hU').
Proof.
  induction 1 as [T U Hd|T V U Hd _ IH]; intros [|fuel] h p h' Hr; try done.
  - destruct (resolve_Ret_step _ _ _ _ _ _ _ Hr Hd) as (hU & pU & hU' & HU).
    exists fuel, hU, pU, hU'. split; [lia|done].
  - destruct (resolve_Ret_step _ _ _ _ _ _ _ Hr Hd) as (hV & pV & hV' & HV).
    destruct (IH _ _ _ _ HV) as (fuel' & hU & pU & hU' & Hlt & HU).
    exists fuel', hU, pU, hU'. split; [lia|done].
Qed.

Lemma on_cycle_never_returns c U :
  on_cycle c U → ∀ fuel h p h', resolve fuel c U h ≠ Ret (p, h').
Proof.
  intros Hcyc fuel. induction (lt_wf fuel) as [fuel _ IH].
  intros h p h' Hr.
  destruct (resolve_Ret_tc _ _ _ Hcyc _ _ _ _ Hr)
    as (fuel' & hU & pU & hU' & Hlt & HU).
  by apply (IH fuel' Hlt hU pU hU').
Qed.

Lemma resolve_Ret_reachable c T U :
  reachable c T U → ∀ fuel h p h', resolve fuel c T h = Ret (p, h') →
  ∃ fuel' hU pU hU', resolve fuel' c U hU = Ret (pU, hU').
Proof.
  intros Hreach fuel h p h' Hr. apply rtc_tc in Hreach as [<-|Htc].
  - eauto.
  - destruct (resolve_Ret_tc _ _ _ Htc _ _ _ _ Hr)
      as (fuel' & hU & pU & hU' & _ & HU). eauto.
Qed.

Lemma resolve_Ret_acyclic fuel c T h p h' :
  resolve fuel c T h = Ret (p, h') → acyclic_from c T.
Proof.
  intros Hr U Hreach Hcyc.
  destruct (resolve_Ret_reachable _ _ _ Hreach _ _ _ _ Hr)
    as (fuel' & hU & pU & hU' & HU).
  by apply (on_cycle_never_returns _ _ Hcyc _ _ _ _ HU).
Qed.

Lemma resolve_Ret_deps_registered fuel c T h p h' :
  resolve fuel c T h = Ret (p, h') → deps_registered c T.
Proof.
  intros Hr U Hreach.
  destruct (resolve_Ret_reachable _ _ _ Hreach _ _ _ _ Hr)
    as ([|fuel'] & hU & pU & hU' & HU); [done|].
  unfold registered. destruct (creators_ c !! type_name U) eqn:Hk; [eauto|].
  by rewrite resolve_unregistered in HU.
Qed.

End ValidOrder.

(** *** Where an exception comes from *)

Lemma resolve_Throw_inv fuel c T h e :
  resolve fuel c T h = Throw e →
  e = unregistered ∧
  ∃ U, reachable c T U ∧ creators_ c !! type_name U = None.
Proof.
  revert T h. induction fuel as [|fuel IH]; intros T h Hr; [done|].
  destruct (creators_ c !! type_name T) as [cr|] eqn:Hk.
  2:{ rewrite resolve_unregistered in Hr by done. injection Hr as <-.
      split; [done|]. exists T. split; [apply rtc_refl|done]. }
  rewrite (resolve_registered _ _ _ _ _ Hk) in Hr.
  destruct cr as [T'|T' Args]; simpl in Hr; [done|].
  apply bind_Throw_inv in Hr as [Hr|([m hm] & _ & Hr)]; [|done].
  apply resolve_args_Throw in Hr as (i & D & hi & _ & HD & Hrec).
  destruct (IH _ _ Hrec) as [-> (U & Hreach & HU)]. split; [done|].
  exists U. split; [|done]. eapply rtc_l; [|done].
  exists (dependent_creator T' Args). split; [done|].
  simpl. by eapply list_elem_of_lookup_2.
Qed.

Lemma deps_registered_never_throws fuel c T h e :
  deps_registered c T → resolve fuel c T h ≠ Throw e.
Proof.
  intros Hreg Hr. apply resolve_Throw_inv in Hr as [_ (U & Hreach & HU)].
  destruct (Hreg U Hreach) as [cr Hcr]. congruence.
Qed.

(** *** Termination on acyclic graphs

    [seen] collects the keys on the current chain of nested calls.  Without
    a cycle no key comes back, so every nested call removes one key from
    those still available. *)
Lemma resolve_terminates_aux c n :
  ∀ (seen : gset string) T,
    size (dom (creators_ c) ∖ seen) ≤ n →
    (∀ U, reachable c T U → type_name U ∉ seen) →
    acyclic_from c T →
    ∀ h, resolve (S n) c T h ≠ OutOfFuel.
Proof.
  induction n as [|n IH]; intros seen T Hsize Hseen Hacyc h Hr.
  all: destruct (creators_ c !! type_name T) as [cr|] eqn:Hk;
    [|by rewrite resolve_unregistered in Hr].
  all: assert (type_name T ∈ dom (creators_ c) ∖ seen) as Hin
    by (apply elem_of_difference; split;
        [by apply elem_of_dom|apply Hseen, rtc_refl]).
  { assert (dom (creators_ c) ∖ seen ≡ ∅) as Hempty
      by (apply size_empty_iff; lia).
    rewrite Hempty in Hin. by apply not_elem_of_empty in Hin. }
  rewrite (resolve_registered _ _ _ _ _ Hk) in Hr.
  destruct cr as [T'|T' Args]; simpl in Hr; [done|].
  apply bind_OutOfFuel_inv in Hr as [Hr|([m hm] & _ & Hr)]; [|done].
  apply resolve_args_OutOfFuel in Hr as (i & D & hi & _ & HD & Hrec).
  assert (depends_on c T D) as Hdep.
  { exists (dependent_creator T' Args). split; [done|].
    simpl. by eapply list_elem_of_lookup_2. }
  revert Hrec. apply (IH (seen ∪ {[type_name T]})).
  - assert (dom (creators_ c) ∖ (seen ∪ {[type_name T]})
              ⊂ dom (creators_ c) ∖ seen) as Hsub.
    { split.
      - intros k [Hd Hn%not_elem_of_union]%elem_of_difference.
        apply elem_of_difference. tauto.
      - intros Hsub. apply Hsub, elem_of_difference in Hin as [_ Hn].
        apply Hn, elem_of_union. right. by apply elem_of_singleton. }
    apply subset_size in Hsub. lia.
  - intros U Hreach. apply not_elem_of_union. split.
    + apply Hseen. by eapply rtc_l.
    + intros HU%elem_of_singleton.
      apply (Hacyc D); [by apply rtc_once|].
      eapply tc_rtc_l; [done|]. apply tc_once.
      exists (dependent_creator T' Args). split; [by rewrite HU|].
      simpl. by eapply list_elem_of_lookup_2.
  - intros U Hreach. apply Hacyc. by eapply rtc_l.
Qed.

Lemma resolve_terminates c T h :
  acyclic_from c T → resolve (S (size (creators_ c))) c T h ≠ OutOfFuel.
Proof.
  intros Hacyc. apply (resolve_terminates_aux c _ ∅); [| |done].
  2:{ intros U _. apply not_elem_of_empty. }
  rewrite difference_empty_L. by rewrite size_dom.
Qed.

(** *** The acyclicity test is sound *)

Lemma acyclic_check_step fuel c T U :
  acyclic_check type_name (S fuel) c T = true → depends_on c T U →
  acyclic_check type_name fuel c U = true.
Proof.
  simpl. intros Hchk (cr & Hk & HU). rewrite Hk in Hchk.
  rewrite forallb_forall in Hchk. by apply Hchk, list_elem_of_In.
Qed.

Lemma acyclic_check_tc c T U :
  tc (depends_on c) T U →
  ∀ fuel, acyclic_check type_name fuel c T = true →
  ∃ fuel', fuel' < fuel ∧ acyclic_check type_name fuel' c U = true.
Proof.
  induction 1 as [T U Hd|T V U Hd _ IH]; intros [|fuel] Hchk; try done.
  - exists fuel. split; [lia|]. by eapply acyclic_check_step.
  - destruct (IH fuel) as (fuel' & Hlt & HU); [by eapply acyclic_check_step|].
    exists fuel'. split; [lia|done].
Qed.

Lemma acyclic_check_sound fuel c T :
  acyclic_check type_name fuel c T = true → acyclic_from c T.
Proof.
  intros Hchk U Hreach Hcyc.
  assert (∃ fuel', acyclic_check type_name fuel' c U = true) as [fuel' HU].
  { apply rtc_tc in Hreach as [<-|Htc]; [eauto|].
    destruct (acyclic_check_tc _ _ _ Htc _ Hchk) as (fuel' & _ & HU). eauto. }
  clear Hchk Hreach. induction (lt_wf fuel') as [fuel' _ IH].
  destruct (acyclic_check_tc _ _ _ Hcyc _ HU) as (fuel'' & Hlt & HU').
  by apply (IH fuel'').
Qed.

(** *** Registration *)

Lemma registerType_lookup T c :
  creators_ (registerType type_name T c) !! type_name T
  = Some (default_creator T).
Proof. apply lookup_insert_eq. Qed.

Lemma registerType_lookup_ne T c k :
  type_name T ≠ k →
  creators_ (registerType type_name T c) !! k = creators_ c !! k.
Proof. intros Hne. by apply lookup_insert_ne. Qed.

Lemma registerTypeWithDependencies_lookup T Args c :
  creators_ (registerTypeWithDependencies type_name T Args c) !! type_name T
  = Some (dependent_creator T Args).
Proof. apply lookup_insert_eq. Qed.

Lemma registerTypeWithDependencies_lookup_ne T Args c k :
  type_name T ≠ k →
  creators_ (registerTypeWithDependencies type_name T Args c) !! k
  = creators_ c !! k.
Proof. intros Hne. by apply lookup_insert_ne. Qed.

(** After registering every class of [Ds] with [registerType], each of them
    has a dependency-free closure, and the other keys are as before. *)
Lemma foldr_registerType_lookup Ds c D :
  D ∈ Ds →
  ∃ D', creators_ (foldr (registerType type_name) c Ds) !! type_name D
        = Some (default_creator D').
Proof.
  induction Ds as [|D0 Ds IH]; intros HD; [by apply elem_of_nil in HD|].
  cbn [foldr]. destruct (decide (type_name D0 = type_name D)) as [Heq|Hne].
  - exists D0. rewrite <- Heq. apply registerType_lookup.
  - apply elem_of_cons in HD as [->|HD]; [done|].
    rewrite registerType_lookup_ne by done. by apply IH.
Qed.

Lemma foldr_registerType_lookup_ne Ds c k :
  k ∉ type_name <$> Ds →
  creators_ (foldr (registerType type_name) c Ds) !! k = creators_ c !! k.
Proof.
  induction Ds as [|D0 Ds IH]; intros Hk; [done|].
  cbn [foldr]. rewrite fmap_cons in Hk.
  apply not_elem_of_cons in Hk as [Hne Hk].
  rewrite registerType_lookup_ne by done. by apply IH.
Qed.

(** *** When the pack evaluation returns or throws *)

Lemma resolve_args_total rec Args order h :
  (∀ D, D ∈ Args → ∀ hD, ∃ pD hD', rec D hD = Ret (pD, hD')) →
  ∃ m h', resolve_args rec Args order h = Ret (m, h').
Proof.
  intros Hrec. revert h. induction order as [|i order IH]; intros h.
  { simpl. eauto. }
  simpl. destruct (Args !! i) as [D|] eqn:HD; [|apply IH].
  destruct (Hrec D (list_elem_of_lookup_2 _ _ _ HD) h) as (p & h1 & ->).
  simpl. destruct (IH h1) as (m & h2 & ->). simpl. eauto.
Qed.

Lemma resolve_args_all_throw rec Args i order h e :
  (∀ D, D ∈ Args → ∀ hD, rec D hD = Throw e) →
  i < length Args →
  resolve_args rec Args (i :: order) h = Throw e.
Proof.
  intros Hrec Hi. simpl.
  destruct (lookup_lt_is_Some_2 _ _ Hi) as [D HD]. rewrite HD.
  by rewrite (Hrec D (list_elem_of_lookup_2 _ _ _ HD)).
Qed.

(** *** Left-to-right evaluation is the specification's factory *)

Lemma spec_resolve_deps_length rec Ds h ps h' :
  spec_resolve_deps rec Ds h = Ret (ps, h') → length ps = length Ds.
Proof.
  revert h ps h'. induction Ds as [|D Ds IH]; intros h ps h' Hr; simpl in Hr.
  { by injection Hr as <- <-. }
  apply bind_Ret_inv in Hr as ([p h1] & _ & Hr).
  apply bind_Ret_inv in Hr as ([ps' h2] & Hrest & Hr).
  injection Hr as <- <-. simpl. f_equal. by eapply IH.
Qed.

Lemma resolve_args_seq rec Ds : ∀ pre h,
  resolve_args rec (pre ++ Ds) (seq (length pre) (length Ds)) h
  = '(ps, h') ← spec_resolve_deps rec Ds h;
    Ret (map_seq (length pre) ps, h').
Proof.
  induction Ds as [|D Ds IH]; intros pre h; [done|].
  cbn [length seq resolve_args spec_resolve_deps].
  rewrite list_lookup_middle by done.
  destruct (rec D h) as [[p h1]| |]; simpl; [|done|done].
  specialize (IH (pre ++ [D]) h1).
  rewrite <- (assoc_L (++)), length_app, Nat.add_1_r in IH. simpl in IH.
  rewrite IH.
  by destruct (spec_resolve_deps rec Ds h1) as [[ps h2]| |].
Qed.

Lemma ctor_args_map_seq (ps : list shared_ptr) :
  ctor_args (map_seq 0 ps) (length ps) = ps.
Proof.
  apply list_eq. intros j. destruct (decide (j < length ps)) as [Hj|Hj].
  - rewrite ctor_args_lookup by done. rewrite lookup_map_seq_0.
    destruct (lookup_lt_is_Some_2 _ _ Hj) as [p ->]. done.
  - rewrite !lookup_ge_None_2; [done|lia|rewrite ctor_args_length; lia].
Qed.

Lemma invoke_left_to_right_spec rec T' Args h :
  invoke_left_to_right rec (dependent_creator T' Args) h
  = spec_factory rec T' Args h.
Proof.
  unfold spec_factory. simpl. unfold left_to_right.
  pose proof (resolve_args_seq rec Args [] h) as Heq. simpl in Heq.
  rewrite Heq.
  destruct (spec_resolve_deps rec Args h) as [[ps h']| |] eqn:Hspec;
    simpl; [|done|done].
  rewrite <- (spec_resolve_deps_length _ _ _ _ _ Hspec).
  by rewrite ctor_args_map_seq.
Qed.

(** *** The object a closure builds *)

Lemma invoke_Ret_class rec cr h p h' :
  invoke rec cr h = Ret (p, h') →
  ∃ hm args, p = ptr (length hm) ∧
    h' = hm ++ [Object (creator_class cr) args].
Proof.
  destruct cr as [T'|T' Args]; simpl; intros Hr.
  - injection Hr as <- <-. eauto.
  - apply bind_Ret_inv in Hr as ([m hm] & _ & Hr). injection Hr as <- <-.
    eauto.
Qed.

Lemma constructed_well_keyed c k cr :
  constructed type_name c → creators_ c !! k = Some cr →
  k = type_name (creator_class cr).
Proof.
  induction 1 as [|T0 c _ IH|T0 Args c _ IH]; simpl; intros Hk.
  - by rewrite lookup_empty in Hk.
  - apply lookup_insert_Some in Hk as [[<- <-]|[_ Hk]]; [done|by apply IH].
  - apply lookup_insert_Some in Hk as [[<- <-]|[_ Hk]]; [done|by apply IH].
Qed.

(** *** Registered dependencies, seen from the dependent type *)

Lemma deps_registered_dependent c T T' Args :
  creators_ c !! type_name T = Some (dependent_creator T' Args) →
  deps_registered c T ↔ Forall (deps_registered c) Args.
Proof.
  intros Hk. rewrite Forall_forall. split.
  - intros Hreg D HD U Hreach. apply Hreg. eapply rtc_l; [|done].
    exists (dependent_creator T' Args). done.
  - intros Hall U Hreach. apply rtc_inv in Hreach as [<-|(D & Hd & Hreach)].
    + by exists (dependent_creator T' Args).
    + destruct Hd as (cr & Hcr & HD). rewrite Hk in Hcr.
      injection Hcr as <-. by apply (Hall D).
Qed.


(** *** Resolving a type that has dependencies *)

Lemma resolve_dependent_returns c T T' Args fuel h :
  creators_ c !! type_name T = Some (dependent_creator T' Args) →
  (∀ D, D ∈ Args →
     ∀ hD, ∃ pD hD', resolve fuel c D hD = Ret (pD, hD')) →
  ∃ p h', resolve (S fuel) c T h = Ret (p, h').
Proof.
  intros Hk Hall.
  rewrite (resolve_registered _ _ _ _ _ Hk), invoke_dependent.
  destruct (resolve_args_total (resolve fuel c) Args (arg_order T' Args) h
              Hall) as (m & h' & ->). simpl. eauto.
Qed.

Lemma resolve_dependent_Ret_inv
    (arg_order_perm : ∀ T Args, arg_order T Args ≡ₚ seq 0 (length Args))
    c T T' Args fuel h p h' :
  creators_ c !! type_name T = Some (dependent_creator T' Args) →
  resolve (S fuel) c T h = Ret (p, h') →
  ∃ hm ps, p = ptr (length hm) ∧ h' = hm ++ [Object T' ps] ∧
    length ps = length Args ∧ h `prefix_of` hm ∧
    ∀ j D, Args !! j = Some D →
      ∃ pj hj hj', ps !! j = Some pj ∧
        resolve fuel c D hj = Ret (pj, hj') ∧
        h `prefix_of` hj ∧ hj' `prefix_of` hm.
Proof.
  intros Hk Hr. rewrite (resolve_registered _ _ _ _ _ Hk) in Hr.
  apply (invoke_dependent_Ret arg_order_perm) in Hr
    as (hm & ps & -> & -> & Hlen & Hpre & Hpos).
  pose proof (resolve_allocates_fresh fuel c) as Hfresh.
  exists hm, ps. split; [done|]. split; [done|]. split; [done|].
  split; [by apply Hpre|]. intros j D HD.
  destruct (Hpos j D HD) as (pj & hj & hj' & Hj & Hrec & Hh).
  destruct (Hh Hfresh). by exists pj, hj, hj'.
Qed.

(** Every handle stored in a resolved object was allocated during that
    very call. *)
Lemma resolve_ctor_args_fresh
    (arg_order_perm : ∀ T Args, arg_order T Args ≡ₚ seq 0 (length Args))
    fuel c T h p h' :
  resolve fuel c T h = Ret (p, h') →
  ∃ hm o, p = ptr (length hm) ∧ h' = hm ++ [o] ∧ h `prefix_of` hm ∧
    ∀ q, q ∈ obj_ctor_args o →
      ∃ l, q = ptr l ∧ length h ≤ l < length hm.
Proof.
  intros Hr. destruct fuel as [|fuel]; [done|].
  destruct (creators_ c !! type_name T) as [cr|] eqn:Hk;
    [|by rewrite resolve_unregistered in Hr].
  rewrite (resolve_registered _ _ _ _ _ Hk) in Hr.
  destruct cr as [T'|T' Args].
  { simpl in Hr. injection Hr as <- <-. exists h, (Object T' []).
    split; [done|]. split; [done|]. split; [done|].
    intros q Hq. by apply elem_of_nil in Hq. }
  apply (invoke_dependent_Ret arg_order_perm) in Hr
    as (hm & ps & -> & -> & Hlen & Hpre & Hpos).
  pose proof (resolve_allocates_fresh fuel c) as Hfresh.
  exists hm, (Object T' ps). split; [done|]. split; [done|].
  split; [by apply Hpre|]. simpl. intros q Hq.
  apply list_elem_of_lookup in Hq as [j Hj].
  destruct (lookup_lt_is_Some_2 Args j) as [D HD].
  { rewrite <- Hlen. by eapply lookup_lt_Some. }
  destruct (Hpos j D HD) as (pj & hj & hj' & Hj' & Hrec & Hh).
  destruct (Hh Hfresh) as [Hh1 Hh2].
  destruct (Hfresh _ _ _ _ Hrec) as [_ (l & -> & Hl)].
  exists l. split; [congruence|].
  apply prefix_length in Hh1, Hh2. lia.
Qed.

Lemma deps_registered_default c D D' :
  creators_ c !! type_name D = Some (default_creator D') →
  deps_registered c D.
Proof.
  intros Hk U Hreach. apply rtc_inv in Hreach as [<-|(V & Hd & _)].
  - by exists (default_creator D').
  - destruct Hd as (cr & Hcr & HV). rewrite Hk in Hcr. injection Hcr as <-.
    by apply elem_of_nil in HV.
Qed.

(** ** The claims *)

(** C2. A type with no closure under its key: every call of [resolve] for it
    (that is started at all) throws
    [std::runtime_error("Type not registered in DI container.")]; no handle,
    null or otherwise, is returned. *)
Theorem resolve_unregistered_throws c T fuel h :
  creators_ c !! type_name T = None →
  resolve (S fuel) c T h
    = Throw (runtime_error "Type not registered in DI container.")
  ∧ ∀ p h', resolve (S fuel) c T h ≠ Ret (p, h').
Proof.
  intros Hk. rewrite resolve_unregistered by done. split; [done|].
  intros p h'. discriminate.
Qed.

(** C8. A type whose closure is the one [registerType<T>] installed:
    [resolve<T>] returns a non-null handle to an object of class [T] that
    did not exist before the call. *)
Theorem resolve_simple_returns_new_instance c T fuel h :
  creators_ c !! type_name T = Some (default_creator T) →
  ∃ p h', resolve (S fuel) c T h = Ret (p, h') ∧
    p ≠ nullptr ∧
    deref h p = None ∧
    deref h' p = Some (Object T []) ∧
    h' = h ++ [Object T []].
Proof.
  intros Hk. exists (ptr (length h)), (h ++ [Object T []]).
  rewrite (resolve_default _ _ _ _ _ Hk). split; [done|]. split; [done|].
  unfold deref. split; [by apply lookup_ge_None_2|]. split; [|done].
  by apply list_lookup_middle.
Qed.

(** C3. Two successive [resolve<T>] calls for a type registered with
    [registerType<T>] each run the closure: each allocates one new object of
    class [T], the two handles differ, and both objects are alive in the
    final heap.  Whatever the caller allocates in between ([between]) does
    not change this. *)
Theorem resolve_twice_distinct_instances c T fuel1 fuel2 h between :
  creators_ c !! type_name T = Some (default_creator T) →
  ∃ p1 h1 p2 h2,
    resolve (S fuel1) c T h = Ret (p1, h1) ∧
    resolve (S fuel2) c T (h1 ++ between) = Ret (p2, h2) ∧
    p1 ≠ p2 ∧
    h1 = h ++ [Object T []] ∧
    h2 = h1 ++ between ++ [Object T []] ∧
    deref h2 p1 = Some (Object T []) ∧
    deref h2 p2 = Some (Object T []).
Proof.
  intros Hk.
  exists (ptr (length h)), (h ++ [Object T []]),
    (ptr (length ((h ++ [Object T []]) ++ between))),
    ((h ++ [Object T []]) ++ between ++ [Object T []]).
  rewrite !(resolve_default _ _ _ _ _ Hk).
  split; [done|].
  split; [by rewrite (assoc_L (++) (h ++ _) between)|].
  split; [rewrite !length_app; simpl; intros [=]; lia|].
  split; [done|]. split; [done|]. unfold deref. split.
  - rewrite <- (assoc_L (++) h). by apply list_lookup_middle.
  - rewrite (assoc_L (++) _ between). by apply list_lookup_middle.
Qed.

(** C4. The map has one closure per key at most, and a registration
    replaces what the key held: after [registerType<T>] followed by
    [registerTypeWithDependencies<T, Args...>] the registry is the one the
    second call alone produces, [T]'s key holds the second closure, and
    [resolve<T>] runs that closure. *)
Theorem reregistration_last_wins c T Args fuel h :
  let c2 := registerTypeWithDependencies type_name T Args
              (registerType type_name T c) in
  NoDup (map_to_list (creators_ c)).*1 ∧
  NoDup (map_to_list (creators_ c2)).*1 ∧
  size (creators_ c2) = size (creators_ (registerType type_name T c)) ∧
  c2 = registerTypeWithDependencies type_name T Args c ∧
  creators_ c2 !! type_name T = Some (dependent_creator T Args) ∧
  resolve (S fuel) c2 T h
    = invoke (resolve fuel c2) (dependent_creator T Args) h.
Proof.
  intros c2. split; [apply NoDup_fst_map_to_list|].
  split; [apply NoDup_fst_map_to_list|].
  split; [|split; [|split]].
  - apply map_size_insert_Some. exists (default_creator T).
    apply lookup_insert_eq.
  - unfold c2, registerTypeWithDependencies, registerType. simpl.
    by rewrite insert_insert_eq.
  - apply registerTypeWithDependencies_lookup.
  - apply resolve_registered, registerTypeWithDependencies_lookup.
Qed.

(** C9 (as amended).  In a registry built through the public interface,
    [resolve<T>] only ever returns an object built by a closure that was
    registered for a class with the same key as [T]; and a registration
    leaves every other key alone.  Nothing here makes the keys of two
    different types differ. *)
Theorem resolve_returns_class_with_same_key c T fuel h p h' :
  constructed type_name c →
  resolve fuel c T h = Ret (p, h') →
  (∃ o, deref h' p = Some o ∧ type_name (obj_class o) = type_name T) ∧
  (∀ T1 Args, type_name T1 ≠ type_name T →
     creators_ (registerType type_name T1 c) !! type_name T
       = creators_ c !! type_name T ∧
     creators_ (registerTypeWithDependencies type_name T1 Args c)
         !! type_name T
       = creators_ c !! type_name T).
Proof.
  intros Hc Hr. split.
  - destruct fuel as [|fuel]; [done|].
    destruct (creators_ c !! type_name T) as [cr|] eqn:Hk;
      [|by rewrite resolve_unregistered in Hr].
    rewrite (resolve_registered _ _ _ _ _ Hk) in Hr.
    apply invoke_Ret_class in Hr as (hm & args & -> & ->).
    exists (Object (creator_class cr) args). split.
    + unfold deref. by apply list_lookup_middle.
    + simpl. symmetry. by apply (constructed_well_keyed c).
  - intros T1 Args Hne. split.
    + by apply registerType_lookup_ne.
    + by apply registerTypeWithDependencies_lookup_ne.
Qed.

(** C7 (as amended).  Without a cycle reachable from [T], [resolve<T>] ends
    (returns or throws) within a nesting depth of one more than the number
    of registered keys.  With a reachable cycle and every reachable type
    registered, no nesting depth is enough: the call neither returns nor
    throws. *)
Theorem resolve_terminates_without_cycle_diverges_with
    (arg_order_perm : ∀ T Args, arg_order T Args ≡ₚ seq 0 (length Args))
    c T :
  (acyclic_from c T →
   ∀ fuel h,
     size (creators_ c) < fuel → resolve fuel c T h ≠ OutOfFuel) ∧
  (deps_registered c T → (∃ U, reachable c T U ∧ on_cycle c U) →
   ∀ fuel h, resolve fuel c T h = OutOfFuel).
Proof.
  split.
  - intros Hacyc fuel h Hfuel Hr.
    destruct (resolve (S (size (creators_ c))) c T h) as [a|e|] eqn:Hr0.
    + by rewrite (resolve_fuel_le _ fuel _ _ _ _ Hfuel Hr0) in Hr.
    + by rewrite (resolve_fuel_le _ fuel _ _ _ _ Hfuel Hr0) in Hr.
    + by apply resolve_terminates in Hr0.
  - intros Hreg (U & Hreach & Hcyc) fuel h.
    destruct (resolve fuel c T h) as [[p h']|e|] eqn:Hr; [| |done].
    + by destruct (resolve_Ret_acyclic arg_order_perm _ _ _ _ _ _ Hr U).
    + by apply deps_registered_never_throws in Hr.
Qed.

(** C1 (as amended).  [T]'s key holds a closure with dependencies [Args].
    If [resolve<T>] returns, every dependency is registered, directly and
    transitively.  When no cycle is reachable from [T] the converse holds
    too, and a dependency that is, or transitively needs, an unregistered
    type makes [resolve<T>] throw the not-registered error. *)
Theorem resolve_dependent_iff_deps_registered
    (arg_order_perm : ∀ T Args, arg_order T Args ≡ₚ seq 0 (length Args))
    c T T' Args h :
  creators_ c !! type_name T = Some (dependent_creator T' Args) →
  ((∃ fuel p h', resolve fuel c T h = Ret (p, h')) →
   Forall (deps_registered c) Args) ∧
  (acyclic_from c T →
   (Forall (deps_registered c) Args →
    ∃ p h', resolve (S (size (creators_ c))) c T h = Ret (p, h')) ∧
   (∀ D U, D ∈ Args → reachable c D U →
      creators_ c !! type_name U = None →
      resolve (S (size (creators_ c))) c T h = Throw unregistered)).
Proof.
  intros Hk. split.
  { intros (fuel & p & h' & Hr).
    apply (deps_registered_dependent _ _ _ _ Hk).
    by eapply resolve_Ret_deps_registered. }
  intros Hacyc.
  pose proof (resolve_terminates c T h Hacyc) as Hterm.
  destruct (resolve (S (size (creators_ c))) c T h) as [[p h']|e|] eqn:Hr;
    [| |done]; clear Hterm.
  - split; [eauto|]. intros D U HD Hreach HU.
    apply (resolve_Ret_deps_registered arg_order_perm) in Hr.
    destruct (Hr U) as [cr Hcr]; [|congruence].
    eapply rtc_l; [|done]. by exists (dependent_creator T' Args).
  - split.
    + intros Hall. apply (deps_registered_dependent _ _ _ _ Hk) in Hall.
      by apply deps_registered_never_throws in Hr.
    + intros _ _ _ _ _. by apply resolve_Throw_inv in Hr as [-> _].
Qed.

(** A closure whose first evaluated dependency is the type it is stored
    for never gets past that dependency. *)
Lemma resolve_self_dependency_first c T T' Args i order' :
  creators_ c !! type_name T = Some (dependent_creator T' Args) →
  arg_order T' Args = i :: order' →
  Args !! i = Some T →
  ∀ fuel h, resolve fuel c T h = OutOfFuel.
Proof.
  intros Hk Horder Hi fuel. induction fuel as [|fuel IH]; intros h; [done|].
  rewrite (resolve_registered _ _ _ _ _ Hk), invoke_dependent, Horder.
  cbn [resolve_args]. rewrite Hi, IH. done.
Qed.

(** C5 (as amended).  [registerTypeWithDependencies<T, Args...>] never looks
    at the dependencies: whatever the registry holds, the call stores [T]'s
    closure and leaves the other keys alone.  A dependency that is missing,
    or that transitively needs a missing type, shows only when [resolve<T>]
    runs the closure: provided no dependency cycle is reachable from [T],
    the call then throws the not-registered error.  And the closure looks
    the registry up when it runs: once the dependencies have been
    registered, the closure stored earlier returns. *)
Theorem registration_defers_dependency_resolution
    (arg_order_perm : ∀ T Args, arg_order T Args ≡ₚ seq 0 (length Args))
    c T Args :
  let c1 := registerTypeWithDependencies type_name T Args c in
  (creators_ c1 !! type_name T = Some (dependent_creator T Args) ∧
   ∀ k, k ≠ type_name T → creators_ c1 !! k = creators_ c !! k) ∧
  (∀ D U, D ∈ Args → reachable c1 D U →
     creators_ c1 !! type_name U = None →
     acyclic_from c1 T →
     ∀ fuel h, size (creators_ c1) < fuel →
       resolve fuel c1 T h = Throw unregistered) ∧
  ((∀ D, D ∈ Args → type_name D ≠ type_name T) →
   ∀ fuel h, ∃ p h',
     resolve (S (S fuel)) (foldr (registerType type_name) c1 Args) T h
     = Ret (p, h')).
Proof.
  intros c1.
  assert (creators_ c1 !! type_name T = Some (dependent_creator T Args))
    as Hk by apply registerTypeWithDependencies_lookup.
  split; [|split].
  - split; [done|]. intros k Hk'.
    by apply registerTypeWithDependencies_lookup_ne.
  - intros D U HD Hreach HU Hacyc fuel h Hfuel.
    apply (resolve_fuel_le (S (size (creators_ c1)))); [lia| |done].
    pose proof (resolve_terminates c1 T h Hacyc) as Hterm.
    destruct (resolve (S (size (creators_ c1))) c1 T h) as [[p h']|e|] eqn:Hr;
      [| |done].
    + apply (resolve_Ret_deps_registered arg_order_perm) in Hr.
      destruct (Hr U) as [cr Hcr]; [|congruence].
      eapply rtc_l; [|done]. by exists (dependent_creator T Args).
    + by apply resolve_Throw_inv in Hr as [-> _].
  - intros Hne fuel h.
    set (c2 := foldr (registerType type_name) c1 Args).
    assert (creators_ c2 !! type_name T = Some (dependent_creator T Args))
      as Hk2.
    { unfold c2. rewrite foldr_registerType_lookup_ne; [done|].
      intros (D & Heq & HD)%list_elem_of_fmap. by destruct (Hne D HD). }
    apply (resolve_dependent_returns _ _ _ _ _ _ Hk2).
    intros D HD hD.
    destruct (foldr_registerType_lookup Args c1 D HD) as [D' HD'].
    rewrite (resolve_default _ _ _ _ _ HD'). eauto.
Qed.

(** C6 (as amended).  [T]'s key holds a closure with dependencies [Args].
    Invoking it resolves every dependency by a nested [resolve] on the same
    registry, and builds the object from the handles obtained, the handle
    for the [j]-th dependency in the [j]-th place; it returns as soon as all
    dependencies resolve.  The order of the nested calls is the order in
    which the implementation evaluates call arguments; where that is left to
    right, the closure is the factory of the specification. *)
Theorem factory_resolves_dependencies_then_constructs
    (arg_order_perm : ∀ T Args, arg_order T Args ≡ₚ seq 0 (length Args))
    c T T' Args fuel h :
  creators_ c !! type_name T = Some (dependent_creator T' Args) →
  ((∀ D, D ∈ Args →
      ∀ hD, ∃ pD hD', resolve fuel c D hD = Ret (pD, hD')) →
   ∃ p h', resolve (S fuel) c T h = Ret (p, h')) ∧
  (∀ p h', resolve (S fuel) c T h = Ret (p, h') →
   ∃ hm ps, p = ptr (length hm) ∧ h' = hm ++ [Object T' ps] ∧
     length ps = length Args ∧ h `prefix_of` hm ∧
     ∀ j D, Args !! j = Some D →
       ∃ pj hj hj', ps !! j = Some pj ∧
         resolve fuel c D hj = Ret (pj, hj') ∧
         h `prefix_of` hj ∧ hj' `prefix_of` hm) ∧
  resolve_left_to_right (S fuel) c T h
    = spec_factory (resolve_left_to_right fuel c) T' Args h.
Proof.
  intros Hk. split; [|split].
  - by apply (resolve_dependent_returns _ _ T').
  - intros p h'. by apply resolve_dependent_Ret_inv.
  - simpl. rewrite Hk, <- invoke_left_to_right_spec.
    by destruct (invoke_left_to_right _ _ h) as [[p h']| |].
Qed.


End ContainerFacts.

(** ** Evaluation orders that are permutations *)

Lemma left_to_right_perm {ty : Type} (T : ty) (Args : list ty) :
  left_to_right T Args ≡ₚ seq 0 (length Args).
Proof. reflexivity. Qed.

Lemma right_to_left_perm {ty : Type} (T : ty) (Args : list ty) :
  right_to_left T Args ≡ₚ seq 0 (length Args).
Proof. apply reverse_Permutation. Qed.

(** ** [main] *)

Lemma bind_Ret {A B} (a : A) (k : A → outcome B) : Ret a ≫= k = k a.
Proof. reflexivity. Qed.

Lemma deref_prefix {ty : Type} (h1 h2 : heap ty) p o :
  deref h1 p = Some o → h1 `prefix_of` h2 → deref h2 p = Some o.
Proof. destruct p as [|l]; [done|]. apply prefix_lookup_Some. Qed.

Section MainFacts.

Variable type_name : cpp_type → string.
Variable arg_order : cpp_type → list cpp_type → list nat.

Hypothesis arg_order_perm :
  ∀ T Args, arg_order T Args ≡ₚ seq 0 (length Args).
Hypothesis names_distinct : NoDup (type_name <$> mvc_classes).

Lemma main_container_simple T :
  T ∈ [Logger; Model; View; Configuration] →
  creators_ (main_container type_name) !! type_name T
  = Some (default_creator T).
Proof.
  intros HT. unfold main_container, mvc_classes in *.
  rewrite !fmap_cons, !NoDup_cons, !not_elem_of_cons in names_distinct.
  unfold registerTypeWithDependencies, registerType. cbn [creators_].
  destruct names_distinct as ((?&?&?&?&_)&(?&?&?&_)&(?&?&_)&(?&_)&_).
  repeat (apply elem_of_cons in HT as [->|HT]);
    [..|by apply elem_of_nil in HT].
  all: repeat first [rewrite lookup_insert_eq; reflexivity
                    |rewrite lookup_insert_ne by congruence].
Qed.

Lemma controller_dependencies_simple D :
  D ∈ [Model; View; Logger] → D ∈ [Logger; Model; View; Configuration].
Proof.
  intros HD. repeat (apply elem_of_cons in HD as [->|HD]);
    [..|by apply elem_of_nil in HD]; repeat constructor.
Qed.

Lemma main_container_Controller :
  creators_ (main_container type_name) !! type_name Controller
  = Some (dependent_creator Controller [Model; View; Logger]).
Proof. apply registerTypeWithDependencies_lookup. Qed.

(** C10.  Handles stored in a resolved object were all allocated during
    that [resolve] call: none of them is null, none of them existed on the
    heap the call started from.  In [main] (run with nesting depth two or
    more, under any evaluation order and any [typeid] naming that tells the
    five classes apart) all five calls return; the [Controller] holds a
    [Model], a [View] and a [Logger] of its own, and they are not the
    objects the three direct [resolve] calls returned. *)
Theorem main_controller_holds_fresh_dependencies fuel :
  (∀ c T f h p h',
     resolve type_name arg_order f c T h = Ret (p, h') →
     ∃ o, deref h' p = Some o ∧
       ∀ q, q ∈ obj_ctor_args o → q ≠ nullptr ∧ deref h q = None) ∧
  ∃ hs h pm pv pl,
    main type_name arg_order (S (S fuel)) = Ret (hs, h) ∧
    deref h (controller hs) = Some (Object Controller [pm; pv; pl]) ∧
    deref h pm = Some (Object Model []) ∧
    deref h pv = Some (Object View []) ∧
    deref h pl = Some (Object Logger []) ∧
    deref h (model hs) = Some (Object Model []) ∧
    deref h (view hs) = Some (Object View []) ∧
    deref h (logger hs) = Some (Object Logger []) ∧
    pm ≠ model hs ∧ pv ≠ view hs ∧ pl ≠ logger hs.
Proof.
  split.
  { intros c T f h p h' Hr.
    apply (resolve_ctor_args_fresh _ _ arg_order_perm) in Hr
      as (hm & o & -> & -> & Hpre & Hargs).
    exists o. split; [by apply list_lookup_middle|].
    intros q Hq. destruct (Hargs q Hq) as (l & -> & Hl).
    split; [done|]. apply lookup_ge_None_2. lia. }
  pose proof (λ f T HT h, resolve_default type_name arg_order f
                (main_container type_name) T T h
                (main_container_simple T HT)) as Hsimple.
  set (h4 := [Object Configuration []; Object Logger [];
              Object Model []; Object View []]).
  destruct (resolve_dependent_returns type_name arg_order
              (main_container type_name) Controller Controller
              [Model; View; Logger] (S fuel) h4 main_container_Controller)
    as (pc & h & Hctrl).
  { intros D HD hD.
    rewrite Hsimple by (by apply controller_dependencies_simple). eauto. }
  destruct (resolve_dependent_Ret_inv type_name arg_order arg_order_perm
              _ _ _ _ _ _ _ _ main_container_Controller Hctrl)
    as (hm & ps & -> & -> & Hlen & Hpre & Hpos).
  destruct ps as [|pm [|pv [|pl [|? ?]]]]; try done. clear Hlen.
  exists (mkHandles (ptr 0) (ptr 1) (ptr 2) (ptr 3) (ptr (length hm))),
    (hm ++ [Object Controller [pm; pv; pl]]), pm, pv, pl.
  assert (∀ j D pj, [Model; View; Logger] !! j = Some D →
            [pm; pv; pl] !! j = Some pj →
            deref (hm ++ [Object Controller [pm; pv; pl]]) pj
              = Some (Object D []) ∧
            ∃ l, pj = ptr l ∧ 4 ≤ l) as Hdep.
  { intros j D pj HD Hpj.
    destruct (Hpos j D HD) as (pj' & hj & hj' & Hpj' & Hrec & Hh1 & Hh2).
    rewrite Hpj in Hpj'. injection Hpj' as <-.
    rewrite Hsimple in Hrec
      by (by eapply controller_dependencies_simple, list_elem_of_lookup_2).
    injection Hrec as <- <-. split.
    - apply (deref_prefix (hj ++ [Object D []])).
      + by apply list_lookup_middle.
      + etrans; [done|]. by apply prefix_app_r.
    - exists (length hj). split; [done|]. by apply prefix_length in Hh1. }
  destruct (Hdep 0 Model pm eq_refl eq_refl) as [Hm (lm & -> & Hlm)].
  destruct (Hdep 1 View pv eq_refl eq_refl) as [Hv (lv & -> & Hlv)].
  destruct (Hdep 2 Logger pl eq_refl eq_refl) as [Hl (ll & -> & Hll)].
  assert (h4 `prefix_of` hm ++ [Object Controller [ptr lm; ptr lv; ptr ll]])
    as Hpre4 by (etrans; [done|]; by apply prefix_app_r).
  split.
  { unfold main. cbv zeta.
    rewrite (Hsimple _ Configuration) by repeat constructor. rewrite bind_Ret.
    cbv beta iota. rewrite (Hsimple _ Logger) by repeat constructor.
    rewrite bind_Ret. cbv beta iota.
    rewrite (Hsimple _ Model) by repeat constructor. rewrite bind_Ret.
    cbv beta iota. rewrite (Hsimple _ View) by repeat constructor.
    rewrite bind_Ret. cbv beta iota.
    change (resolve type_name arg_order (S (S fuel))
              (main_container type_name) Controller h4
            ≫= (λ '(controller, h),
                  Ret (mkHandles (ptr 0) (ptr 1) (ptr 2) (ptr 3) controller,
                       h)) = Ret (mkHandles (ptr 0) (ptr 1) (ptr 2) (ptr 3)
                                    (ptr (length hm)),
                                  hm ++ [Object Controller
                                           [ptr lm; ptr lv; ptr ll]])).
    by rewrite Hctrl. }
  split; [by apply list_lookup_middle|].
  split; [done|]. split; [done|]. split; [done|].
  split; [by apply (deref_prefix h4)|].
  split; [by apply (deref_prefix h4)|].
  split; [by apply (deref_prefix h4)|].
  simpl. repeat split; intros [=]; lia.
Qed.

End MainFacts.

(** ** Concrete runs *)

(** *** The self-dependent registration *)

Lemma self_dependent_edges T U :
  depends_on typeid_name self_dependent T U →
  typeid_name T = "Self" ∧ U = Self.
Proof.
  intros (cr & Hk & HU).
  unfold self_dependent, registerTypeWithDependencies, empty_container in Hk.
  cbn [creators_] in Hk.
  apply lookup_insert_Some in Hk as [[Hname <-]|[_ Hk]].
  - split; [done|]. simpl in HU. by apply list_elem_of_singleton in HU.
  - by rewrite lookup_empty in Hk.
Qed.

Lemma self_dependent_reachable U :
  reachable typeid_name self_dependent Self U → U = Self.
Proof.
  intros Hreach. remember Self as T eqn:HT.
  induction Hreach as [|T V U Hd _ IH]; [done|].
  apply self_dependent_edges in Hd as [_ ->]. rewrite HT. by apply IH.
Qed.

Lemma self_dependent_deps_registered :
  deps_registered typeid_name self_dependent Self.
Proof.
  intros U ->%self_dependent_reachable.
  by exists (dependent_creator Self [Self]).
Qed.

Lemma self_dependent_on_cycle : on_cycle typeid_name self_dependent Self.
Proof.
  apply tc_once. exists (dependent_creator Self [Self]).
  split; [done|]. apply list_elem_of_singleton. done.
Qed.

(** C1, counterexample.  [Self] is registered with the single dependency
    [Self]: every dependency is registered, yet [resolve<Self>] returns at
    no nesting depth (with one argument the evaluation order plays no
    part). *)
Lemma self_dependency_registered_but_never_resolved :
  creators_ self_dependent !! typeid_name Self
    = Some (dependent_creator Self [Self]) ∧
  Forall (deps_registered typeid_name self_dependent) [Self] ∧
  (¬ ∃ fuel p h',
       resolve typeid_name left_to_right fuel self_dependent Self []
       = Ret (p, h')) ∧
  (¬ ∃ fuel p h',
       resolve typeid_name right_to_left fuel self_dependent Self []
       = Ret (p, h')).
Proof.
  split; [done|]. split; [|split].
  - apply Forall_singleton, self_dependent_deps_registered.
  - intros (fuel & p & h' & Hr).
    by apply (on_cycle_never_returns typeid_name left_to_right
                left_to_right_perm _ _ self_dependent_on_cycle) in Hr.
  - intros (fuel & p & h' & Hr).
    by apply (on_cycle_never_returns typeid_name right_to_left
                right_to_left_perm _ _ self_dependent_on_cycle) in Hr.
Qed.

(** C7, counterexample.  [Node] depends on [Missing] and on itself, so a
    cycle among registered types is reachable from [Node]; evaluated left
    to right, [resolve<Node>] nevertheless ends, with the not-registered
    error, at every nesting depth from two on.  Under right-to-left
    evaluation the same happens with the two dependencies swapped. *)
Lemma cycle_behind_missing_dependency_throws :
  (reachable typeid_name cycle_behind_missing Node Node ∧
   on_cycle typeid_name cycle_behind_missing Node ∧
   ∀ fuel h,
     resolve typeid_name left_to_right (S (S fuel)) cycle_behind_missing
       Node h
     = Throw unregistered) ∧
  (reachable typeid_name cycle_before_missing Node Node ∧
   on_cycle typeid_name cycle_before_missing Node ∧
   ∀ fuel h,
     resolve typeid_name right_to_left (S (S fuel)) cycle_before_missing
       Node h
     = Throw unregistered).
Proof.
  split; (split; [apply rtc_refl|]); split.
  - apply tc_once. exists (dependent_creator Node [Missing; Node]).
    split; [done|]. apply list_elem_of_further, list_elem_of_here.
  - intros fuel h. vm_compute. reflexivity.
  - apply tc_once. exists (dependent_creator Node [Node; Missing]).
    split; [done|]. apply list_elem_of_here.
  - intros fuel h. vm_compute. reflexivity.
Qed.

(** C6, counterexample.  Under right-to-left evaluation of call arguments
    the closure of [Controller] resolves [Logger] first and [Model] last;
    the factory of the specification does the opposite.  The two final
    heaps differ. *)
Lemma right_to_left_is_not_declared_order :
  (∀ (T : cpp_type) Args, right_to_left T Args ≡ₚ seq 0 (length Args)) ∧
  resolve typeid_name right_to_left 2 (main_container typeid_name)
    Controller []
  = Ret (ptr 3, [Object Logger []; Object View []; Object Model [];
                 Object Controller [ptr 2; ptr 1; ptr 0]]) ∧
  spec_factory (resolve typeid_name right_to_left 1
                  (main_container typeid_name))
    Controller [Model; View; Logger] []
  = Ret (ptr 3, [Object Model []; Object View []; Object Logger [];
                 Object Controller [ptr 0; ptr 1; ptr 2]]) ∧
  resolve typeid_name right_to_left 2 (main_container typeid_name)
    Controller []
  ≠ spec_factory (resolve typeid_name right_to_left 1
                    (main_container typeid_name))
      Controller [Model; View; Logger] [].
Proof.
  split; [apply (@right_to_left_perm cpp_type)|].
  split; [reflexivity|]. split; [reflexivity|]. vm_compute. discriminate.
Qed.

(** C9, counterexample.  [Logger] and [const Logger] are different types
    with the same [typeid] name: the closure registered for [Logger] is the
    one [resolve<const Logger>] runs. *)
Lemma const_qualified_type_shares_key :
  Logger ≠ const_ Logger ∧
  typeid_name Logger = typeid_name (const_ Logger) ∧
  resolve typeid_name left_to_right 1
    (registerType typeid_name Logger empty_container) (const_ Logger) []
  = Ret (ptr 0, [Object Logger []]).
Proof. split; [discriminate|]. split; reflexivity. Qed.

(** *** Instances of the theorems *)

Lemma resolve_unregistered_throws_witness :
  creators_ (@empty_container cpp_type) !! typeid_name Controller = None ∧
  resolve typeid_name left_to_right 1 empty_container Controller []
    = Throw (runtime_error "Type not registered in DI container.") ∧
  ∀ p h', resolve typeid_name left_to_right 1 empty_container Controller []
          ≠ Ret (p, h').
Proof.
  split; [reflexivity|].
  apply (resolve_unregistered_throws typeid_name left_to_right
           empty_container Controller 0 []).
  reflexivity.
Defined.

Lemma resolve_simple_returns_new_instance_witness :
  ∃ p h',
    resolve typeid_name left_to_right 1
      (registerType typeid_name Logger empty_container) Logger []
    = Ret (p, h') ∧
    p ≠ nullptr ∧ deref ([] : heap cpp_type) p = None ∧
    deref h' p = Some (Object Logger []) ∧
    h' = [] ++ [Object Logger []].
Proof.
  apply (resolve_simple_returns_new_instance typeid_name left_to_right
           (registerType typeid_name Logger empty_container) Logger 0 []).
  reflexivity.
Defined.

Lemma resolve_twice_distinct_instances_witness :
  ∃ p1 h1 p2 h2,
    resolve typeid_name left_to_right 1 (main_container typeid_name) Model []
      = Ret (p1, h1) ∧
    resolve typeid_name left_to_right 1 (main_container typeid_name) Model
      (h1 ++ []) = Ret (p2, h2) ∧
    p1 ≠ p2 ∧
    h1 = [] ++ [Object Model []] ∧
    h2 = h1 ++ [] ++ [Object Model []] ∧
    deref h2 p1 = Some (Object Model []) ∧
    deref h2 p2 = Some (Object Model []).
Proof.
  apply (resolve_twice_distinct_instances typeid_name left_to_right
           (main_container typeid_name) Model 0 0 [] []).
  reflexivity.
Defined.

Lemma main_container_acyclic :
  acyclic_from typeid_name (main_container typeid_name) Controller.
Proof. by apply (acyclic_check_sound typeid_name 2). Qed.

Lemma container_without_logger_acyclic :
  acyclic_from typeid_name container_without_logger Controller.
Proof. by apply (acyclic_check_sound typeid_name 2). Qed.

Lemma main_container_deps_registered :
  Forall (deps_registered typeid_name (main_container typeid_name))
    [Model; View; Logger].
Proof.
  repeat apply Forall_cons_2; [| | |apply Forall_nil_2].
  - by apply (deps_registered_default typeid_name _ Model Model).
  - by apply (deps_registered_default typeid_name _ View View).
  - by apply (deps_registered_default typeid_name _ Logger Logger).
Qed.

Lemma resolve_dependent_iff_deps_registered_witness :
  (∃ p h',
     resolve typeid_name left_to_right
       (S (size (creators_ (main_container typeid_name))))
       (main_container typeid_name) Controller [] = Ret (p, h')) ∧
  resolve typeid_name left_to_right
    (S (size (creators_ container_without_logger)))
    container_without_logger Controller [] = Throw unregistered.
Proof.
  split.
  - apply (resolve_dependent_iff_deps_registered typeid_name left_to_right
             left_to_right_perm (main_container typeid_name) Controller
             Controller [Model; View; Logger] []).
    + reflexivity.
    + apply main_container_acyclic.
    + apply main_container_deps_registered.
  - apply (resolve_dependent_iff_deps_registered typeid_name left_to_right
             left_to_right_perm container_without_logger Controller
             Controller [Model; View; Logger] [] eq_refl)
      with (D := Logger) (U := Logger).
    + apply container_without_logger_acyclic.
    + do 2 apply list_elem_of_further. apply list_elem_of_here.
    + apply rtc_refl.
    + reflexivity.
Defined.

(** C5, counterexample.  [Node] is registered with the dependencies
    [Node] and [Missing], and [Missing] never is.  Registration goes
    through, but under left-to-right evaluation [resolve<Node>] re-enters
    [Node] before it ever asks for [Missing]: the missing dependency is
    reported at no nesting depth.  Under right-to-left evaluation the same
    happens with the two dependencies swapped. *)
Lemma missing_dependency_behind_cycle_never_reported :
  (creators_ cycle_before_missing !! typeid_name Node
     = Some (dependent_creator Node [Node; Missing]) ∧
   Missing ∈ [Node; Missing] ∧
   creators_ cycle_before_missing !! typeid_name Missing = None ∧
   ∀ fuel h,
     resolve typeid_name left_to_right fuel cycle_before_missing Node h
     = OutOfFuel) ∧
  (creators_ cycle_behind_missing !! typeid_name Node
     = Some (dependent_creator Node [Missing; Node]) ∧
   Missing ∈ [Missing; Node] ∧
   creators_ cycle_behind_missing !! typeid_name Missing = None ∧
   ∀ fuel h,
     resolve typeid_name right_to_left fuel cycle_behind_missing Node h
     = OutOfFuel).
Proof.
  split.
  - split; [reflexivity|].
    split; [apply list_elem_of_further, list_elem_of_here|].
    split; [reflexivity|].
    by apply (resolve_self_dependency_first typeid_name left_to_right
                cycle_before_missing Node Node [Node; Missing] 0 [1]).
  - split; [reflexivity|]. split; [apply list_elem_of_here|].
    split; [reflexivity|].
    by apply (resolve_self_dependency_first typeid_name right_to_left
                cycle_behind_missing Node Node [Missing; Node] 1 [0]).
Qed.

Lemma registration_defers_dependency_resolution_witness :
  creators_ container_without_logger !! typeid_name Controller
    = Some (dependent_creator Controller [Model; View; Logger]) ∧
  (∀ fuel h, size (creators_ container_without_logger) < fuel →
     resolve typeid_name right_to_left fuel container_without_logger
       Controller h
     = Throw unregistered) ∧
  ∃ p h',
    resolve typeid_name right_to_left 2
      (foldr (registerType typeid_name) container_without_logger
         [Model; View; Logger])
      Controller [] = Ret (p, h').
Proof.
  destruct (registration_defers_dependency_resolution typeid_name
              right_to_left right_to_left_perm
              (registerType typeid_name View
                 (registerType typeid_name Model empty_container))
              Controller [Model; View; Logger])
    as ([Hk _] & Hmissing & Hlater).
  split; [exact Hk|]. split.
  - apply (Hmissing Logger Logger).
    + do 2 apply list_elem_of_further. apply list_elem_of_here.
    + apply rtc_refl.
    + reflexivity.
    + apply container_without_logger_acyclic.
  - apply Hlater. intros D HD.
    apply elem_of_cons in HD as [->|HD]; [discriminate|].
    apply elem_of_cons in HD as [->|HD]; [discriminate|].
    apply list_elem_of_singleton in HD as ->. discriminate.
Defined.

Lemma factory_resolves_dependencies_then_constructs_witness :
  (∃ p h', resolve typeid_name right_to_left 2 (main_container typeid_name)
             Controller [] = Ret (p, h')) ∧
  resolve typeid_name left_to_right 2 (main_container typeid_name)
    Controller []
  = spec_factory (resolve typeid_name left_to_right 1
                    (main_container typeid_name))
      Controller [Model; View; Logger] [].
Proof.
  destruct (factory_resolves_dependencies_then_constructs typeid_name
              right_to_left right_to_left_perm (main_container typeid_name)
              Controller Controller [Model; View; Logger] 1 [] eq_refl)
    as (Hreturns & _ & Hspec).
  split; [|exact Hspec]. apply Hreturns. intros D HD hD.
  apply elem_of_cons in HD as [->|HD]; [by eexists _, _|].
  apply elem_of_cons in HD as [->|HD]; [by eexists _, _|].
  apply list_elem_of_singleton in HD as ->. by eexists _, _.
Defined.

Lemma resolve_terminates_without_cycle_diverges_with_witness :
  (∀ fuel h, size (creators_ (main_container typeid_name)) < fuel →
     resolve typeid_name left_to_right fuel (main_container typeid_name)
       Controller h ≠ OutOfFuel) ∧
  (∀ fuel h,
     resolve typeid_name left_to_right fuel self_dependent Self h
     = OutOfFuel).
Proof.
  split.
  - apply (resolve_terminates_without_cycle_diverges_with typeid_name
             left_to_right left_to_right_perm (main_container typeid_name)
             Controller).
    apply main_container_acyclic.
  - apply (resolve_terminates_without_cycle_diverges_with typeid_name
             left_to_right left_to_right_perm self_dependent Self).
    + apply self_dependent_deps_registered.
    + exists Self. split; [apply rtc_refl|apply self_dependent_on_cycle].
Defined.

Lemma resolve_returns_class_with_same_key_witness :
  ∃ o, deref [Object Model []; Object View []; Object Logger [];
              Object Controller [ptr 0; ptr 1; ptr 2]] (ptr 3) = Some o ∧
       typeid_name (obj_class o) = typeid_name Controller.
Proof.
  apply (resolve_returns_class_with_same_key typeid_name left_to_right
           (main_container typeid_name) Controller 2 [] (ptr 3)
           [Object Model []; Object View []; Object Logger [];
            Object Controller [ptr 0; ptr 1; ptr 2]]).
  - repeat constructor.
  - reflexivity.
Defined.

Lemma main_controller_holds_fresh_dependencies_witness :
  ∃ hs h pm pv pl,
    main typeid_name right_to_left 2 = Ret (hs, h) ∧
    deref h (controller hs) = Some (Object Controller [pm; pv; pl]) ∧
    deref h pm = Some (Object Model []) ∧
    deref h pv = Some (Object View []) ∧
    deref h pl = Some (Object Logger []) ∧
    deref h (model hs) = Some (Object Model []) ∧
    deref h (view hs) = Some (Object View []) ∧
    deref h (logger hs) = Some (Object Logger []) ∧
    pm ≠ model hs ∧ pv ≠ view hs ∧ pl ≠ logger hs.
Proof.
  apply (main_controller_holds_fresh_dependencies typeid_name right_to_left
           right_to_left_perm).
  compute_done.
Defined.

(** * Further properties of the container *)

Section ContainerMore.

Context {ty : Type}.
Variable type_name : ty → string.
Variable arg_order : ty → list ty → list nat.

Implicit Types (c : DIContainer ty) (T U D : ty) (h : heap ty).
Implicit Types (rec : ty → heap ty → outcome (shared_ptr * heap ty)).

Local Abbreviation resolve := (resolve type_name arg_order).
Local Abbreviation invoke := (invoke arg_order).
Local Abbreviation reachable := (reachable type_name).
Local Abbreviation deps_registered := (deps_registered type_name).
Local Abbreviation acyclic_from := (acyclic_from type_name).
Local Abbreviation objects_built := (objects_built type_name).

(** *** Returning calls under a change of resolver *)

Lemma resolve_args_Ret_congr rec rec' Args order h a :
  (∀ D hD aD, rec D hD = Ret aD → rec' D hD = Ret aD) →
  resolve_args rec Args order h = Ret a →
  resolve_args rec' Args order h = Ret a.
Proof.
  intros Hcongr. revert h a.
  induction order as [|i order IH]; intros h a Hr; [done|].
  simpl in *. destruct (Args !! i) as [D|]; [|by apply IH].
  apply bind_Ret_inv in Hr as ([p h1] & Hrec & Hr).
  apply bind_Ret_inv in Hr as ([m h2] & Hrest & Hr).
  rewrite (Hcongr _ _ _ Hrec). simpl.
  rewrite (IH _ _ Hrest). done.
Qed.

Lemma resolve_Ret_weaken fuel c c' T h a :
  creators_ c ⊆ creators_ c' →
  resolve fuel c T h = Ret a → resolve fuel c' T h = Ret a.
Proof.
  intros Hsub. revert T h a.
  induction fuel as [|fuel IH]; intros T h a Hr; [done|].
  destruct (creators_ c !! type_name T) as [cr|] eqn:Hk;
    [|by rewrite (resolve_unregistered type_name arg_order) in Hr].
  rewrite (resolve_registered _ _ _ _ _ _ _ Hk) in Hr.
  rewrite (resolve_registered _ _ _ _ _ _ _ (lookup_weaken _ _ _ _ Hk Hsub)).
  destruct cr as [T'|T' Args]; [done|].
  rewrite (invoke_dependent arg_order) in *.
  apply bind_Ret_inv in Hr as ([m hm] & Hargs & Hr).
  by rewrite (resolve_args_Ret_congr _ _ _ _ _ _ (IH) Hargs).
Qed.

(** *** Counting allocations *)

Lemma resolve_args_length rec (cnt : ty → nat) Args order h m h' :
  (∀ D hD p hD', rec D hD = Ret (p, hD') →
     length hD' = length hD + cnt D) →
  resolve_args rec Args order h = Ret (m, h') →
  length h'
  = length h + sum_list ((λ i, from_option cnt 0 (Args !! i)) <$> order).
Proof.
  intros Hcnt. revert h m h'.
  induction order as [|i order IH]; intros h m h' Hr; simpl in Hr.
  { injection Hr as <- <-. simpl. lia. }
  rewrite fmap_cons. cbn [sum_list_with id].
  destruct (Args !! i) as [D|] eqn:HD; simpl.
  - apply bind_Ret_inv in Hr as ([p h1] & Hrec & Hr).
    apply bind_Ret_inv in Hr as ([m1 h2] & Hrest & Hr).
    injection Hr as <- <-.
    rewrite (IH _ _ _ Hrest), (Hcnt _ _ _ _ Hrec). lia.
  - by rewrite (IH _ _ _ Hr).
Qed.

Lemma sum_list_positions (cnt : ty → nat) (Args : list ty) :
  sum_list ((λ i, from_option cnt 0 (Args !! i)) <$> seq 0 (length Args))
  = sum_list (cnt <$> Args).
Proof.
  f_equal. apply list_eq. intros j. rewrite !list_lookup_fmap.
  destruct (decide (j < length Args)) as [Hj|Hj].
  - rewrite lookup_seq_lt by done. simpl.
    by destruct (lookup_lt_is_Some_2 _ _ Hj) as [D ->].
  - rewrite lookup_seq_ge by lia. by rewrite lookup_ge_None_2 by lia.
Qed.

Lemma resolve_Ret_length
    (arg_order_perm : ∀ T Args, arg_order T Args ≡ₚ seq 0 (length Args))
    fuel c T h p h' :
  resolve fuel c T h = Ret (p, h') →
  length h' = length h + objects_built fuel c T.
Proof.
  revert T h p h'. induction fuel as [|fuel IH]; intros T h p h' Hr; [done|].
  simpl. destruct (creators_ c !! type_name T) as [cr|] eqn:Hk;
    [|by rewrite (resolve_unregistered type_name arg_order) in Hr].
  rewrite (resolve_registered _ _ _ _ _ _ _ Hk) in Hr.
  destruct cr as [T'|T' Args]; simpl in Hr.
  { injection Hr as <- <-. rewrite length_app. simpl. lia. }
  apply bind_Ret_inv in Hr as ([m hm] & Hargs & Hr). injection Hr as <- <-.
  apply (resolve_args_length _ (objects_built fuel c)) in Hargs; [|apply IH].
  rewrite arg_order_perm, sum_list_positions in Hargs.
  rewrite length_app. simpl. lia.
Qed.

(** *** The key of a returned object *)

Lemma resolve_Ret_key fuel c T h p h' :
  constructed type_name c →
  resolve fuel c T h = Ret (p, h') →
  ∃ o, deref h' p = Some o ∧ type_name (obj_class o) = type_name T.
Proof.
  intros Hc Hr. destruct fuel as [|fuel]; [done|].
  destruct (creators_ c !! type_name T) as [cr|] eqn:Hk;
    [|by rewrite (resolve_unregistered type_name arg_order) in Hr].
  rewrite (resolve_registered _ _ _ _ _ _ _ Hk) in Hr.
  apply invoke_Ret_class in Hr as (hm & args & -> & ->).
  exists (Object (creator_class cr) args). split.
  - unfold deref. by apply list_lookup_middle.
  - simpl. symmetry. by apply (constructed_well_keyed type_name c).
Qed.

(** ** The properties *)

(** X1.  A returning [resolve] only adds to the heap: every object that
    existed before the call is still there, unchanged, under the same
    handle, and the handle returned is none of the old ones. *)
Theorem resolve_keeps_existing_objects fuel c T h p h' :
  resolve fuel c T h = Ret (p, h') →
  h `prefix_of` h' ∧
  (∀ q o, deref h q = Some o → deref h' q = Some o) ∧
  deref h p = None.
Proof.
  intros Hr.
  destruct (resolve_allocates_fresh type_name arg_order fuel c _ _ _ _ Hr)
    as [Hpre (l & -> & Hl)].
  split; [done|]. split.
  - intros [|lq] o Hq; [done|]. by eapply prefix_lookup_Some.
  - apply lookup_ge_None_2. lia.
Qed.

(** X2.  The not-registered error is never raised without cause: when
    [resolve<T>] fails with it, some type that the dependency lists lead to
    from [T] has no closure.  (Constructors are taken to return, as those of
    every class of the repository do; what a throwing constructor lets out
    is not covered.) *)
Theorem not_registered_error_has_unregistered_origin fuel c T h :
  resolve fuel c T h
    = Throw (runtime_error "Type not registered in DI container.") →
  ∃ U, reachable c T U ∧ creators_ c !! type_name U = None.
Proof. intros Hr. by apply resolve_Throw_inv in Hr as [_ HU]. Qed.

(** X3.  For any type [T], [resolve<T>] returns (given enough nesting
    depth) exactly when every type reachable from [T] is registered and no
    dependency cycle is reachable from [T]; a nesting depth of one more
    than the number of registered keys is then enough. *)
Theorem resolve_returns_iff_registered_and_acyclic
    (arg_order_perm : ∀ T Args, arg_order T Args ≡ₚ seq 0 (length Args))
    c T h :
  ((∃ fuel p h', resolve fuel c T h = Ret (p, h')) ↔
   deps_registered c T ∧ acyclic_from c T) ∧
  (deps_registered c T ∧ acyclic_from c T →
   ∃ p h', resolve (S (size (creators_ c))) c T h = Ret (p, h')).
Proof.
  assert (deps_registered c T ∧ acyclic_from c T →
          ∃ p h', resolve (S (size (creators_ c))) c T h = Ret (p, h'))
    as Hreturns.
  { intros [Hreg Hacyc].
    pose proof (resolve_terminates type_name arg_order c T h Hacyc) as Hterm.
    destruct (resolve (S (size (creators_ c))) c T h) as [[p h']|e|] eqn:Hr;
      [eauto| |done].
    by apply deps_registered_never_throws in Hr. }
  split; [|done]. split.
  - intros (fuel & p & h' & Hr). split.
    + by eapply resolve_Ret_deps_registered.
    + by eapply resolve_Ret_acyclic.
  - intros H. destruct (Hreturns H) as (p & h' & Hr). eauto.
Qed.

(** X4.  Nothing is shared between the objects one [resolve] builds: the
    call allocates one object for [T] and, for each entry of the
    dependency list, as many again as resolving that entry alone does.  A
    class two dependencies need is built twice. *)
Theorem resolve_builds_one_object_per_dependency_path
    (arg_order_perm : ∀ T Args, arg_order T Args ≡ₚ seq 0 (length Args))
    fuel c T h p h' :
  resolve fuel c T h = Ret (p, h') →
  length h' = length h + objects_built fuel c T.
Proof. by apply resolve_Ret_length. Qed.

(** X5.  In a registry built through the public interface, the handles a
    resolved object received from its closure point, place by place, to
    objects whose classes have the keys of the declared dependencies. *)
Theorem resolved_dependencies_have_declared_keys
    (arg_order_perm : ∀ T Args, arg_order T Args ≡ₚ seq 0 (length Args))
    fuel c T cr h p h' :
  constructed type_name c →
  creators_ c !! type_name T = Some cr →
  resolve fuel c T h = Ret (p, h') →
  ∃ o, deref h' p = Some o ∧
    Forall2 (λ q D, ∃ oq, deref h' q = Some oq ∧
                      type_name (obj_class oq) = type_name D)
      (obj_ctor_args o) (creator_args cr).
Proof.
  intros Hc Hk Hr. destruct fuel as [|fuel]; [done|].
  destruct cr as [T'|T' Args].
  { rewrite (resolve_default _ _ _ _ _ _ _ Hk) in Hr. injection Hr as <- <-.
    exists (Object T' []). split; [by apply list_lookup_middle|].
    apply Forall2_nil_2. }
  apply (resolve_dependent_Ret_inv _ _ arg_order_perm _ _ _ _ _ _ _ _ Hk)
    in Hr as (hm & ps & -> & -> & Hlen & Hpre & Hpos).
  exists (Object T' ps). split; [by apply list_lookup_middle|].
  simpl. apply Forall2_same_length_lookup. split; [done|].
  intros j q D Hq HD.
  destruct (Hpos j D HD) as (pj & hj & hj' & Hpj & Hrec & _ & Hh).
  rewrite Hq in Hpj. injection Hpj as <-.
  destruct (resolve_Ret_key _ _ _ _ _ _ Hc Hrec) as (oq & Hoq & Hkey).
  exists oq. split; [|done].
  destruct q as [|lq]; [done|]. simpl in *.
  eapply prefix_lookup_Some; [done|].
  etrans; [done|]. by apply prefix_app_r.
Qed.

(** *** Registration calls on different keys commute *)

Lemma apply_registration_commute c (r1 r2 : registration ty) :
  registration_key type_name r1 ≠ registration_key type_name r2 →
  apply_registration type_name (apply_registration type_name c r1) r2
  = apply_registration type_name (apply_registration type_name c r2) r1.
Proof.
  intros Hne.
  destruct r1 as [T1|T1 Args1], r2 as [T2|T2 Args2]; simpl in *;
    unfold registerType, registerTypeWithDependencies; simpl;
    f_equal; by apply insert_insert_ne.
Qed.

(** X6.  The order of registration calls does not matter as long as no key
    is registered twice: two sequences of calls that are permutations of
    each other leave the same registry. *)
Theorem registration_order_is_irrelevant (rs1 rs2 : list (registration ty)) c :
  NoDup (registration_key type_name <$> rs1) →
  rs1 ≡ₚ rs2 →
  apply_registrations type_name rs1 c = apply_registrations type_name rs2 c.
Proof.
  intros Hnd Hperm. revert c Hnd. unfold apply_registrations.
  induction Hperm as [|r rs1 rs2 _ IH|r1 r2 rs|rs1 rs2 rs3 Hp1 IH1 _ IH2];
    intros c Hnd.
  - done.
  - simpl. apply IH. rewrite fmap_cons in Hnd.
    by apply NoDup_cons in Hnd as [_ Hnd].
  - simpl. f_equal. apply apply_registration_commute.
    rewrite !fmap_cons in Hnd. apply NoDup_cons in Hnd as [Hnotin _].
    intros Heq. apply Hnotin. rewrite Heq. left.
  - rewrite IH1 by done. apply IH2. by rewrite <- Hp1.
Qed.

(** X7.  Registering a type under a key that held nothing does not disturb
    any resolution that already returns: the call returns the same handle
    and the same heap as before. *)
Theorem registering_new_key_keeps_resolutions (r : registration ty)
    c fuel T h a :
  creators_ c !! registration_key type_name r = None →
  resolve fuel c T h = Ret a →
  resolve fuel (apply_registration type_name c r) T h = Ret a.
Proof.
  intros Hnew. apply resolve_Ret_weaken.
  destruct r as [T0|T0 Args0]; by apply insert_subseteq.
Qed.

End ContainerMore.

(** *** Two evaluation orders *)

Lemma resolve_Ret_any_order {ty : Type} (type_name : ty → string)
    (order1 order2 : ty → list ty → list nat)
    (order1_perm : ∀ T Args, order1 T Args ≡ₚ seq 0 (length Args))
    (c : DIContainer ty) fuel :
  ∀ T h1 p1 h1', resolve type_name order1 fuel c T h1 = Ret (p1, h1') →
  ∀ h2, ∃ p2 h2', resolve type_name order2 fuel c T h2 = Ret (p2, h2').
Proof.
  induction fuel as [|fuel IH]; intros T h1 p1 h1' Hr h2; [done|].
  destruct (creators_ c !! type_name T) as [cr|] eqn:Hk;
    [|by rewrite resolve_unregistered in Hr].
  destruct cr as [T'|T' Args].
  { rewrite (resolve_default _ _ _ _ _ _ _ Hk). eauto. }
  apply (resolve_dependent_returns _ _ _ _ T' Args); [done|].
  intros D HD hD. apply list_elem_of_lookup in HD as [j Hj].
  apply (resolve_dependent_Ret_inv _ _ order1_perm _ _ _ _ _ _ _ _ Hk)
    in Hr as (hm & ps & _ & _ & _ & _ & Hpos).
  destruct (Hpos j D Hj) as (pj & hj & hj' & _ & Hrec & _).
  by eapply IH.
Qed.

(** X8.  Whether [resolve<T>] returns, and how many objects it builds,
    depends neither on the order in which the implementation evaluates call
    arguments nor on the heap the call starts from. *)
Theorem resolve_success_independent_of_order_and_heap {ty : Type}
    (type_name : ty → string) (order1 order2 : ty → list ty → list nat)
    (c : DIContainer ty) fuel T h1 p1 h1' h2 :
  (∀ T Args, order1 T Args ≡ₚ seq 0 (length Args)) →
  (∀ T Args, order2 T Args ≡ₚ seq 0 (length Args)) →
  resolve type_name order1 fuel c T h1 = Ret (p1, h1') →
  ∃ p2 h2', resolve type_name order2 fuel c T h2 = Ret (p2, h2') ∧
    length h2' - length h2 = length h1' - length h1.
Proof.
  intros Hperm1 Hperm2 Hr.
  destruct (resolve_Ret_any_order type_name order1 order2 Hperm1 c fuel
              _ _ _ _ Hr h2) as (p2 & h2' & Hr2).
  exists p2, h2'. split; [done|].
  apply (resolve_Ret_length _ _ Hperm1) in Hr.
  apply (resolve_Ret_length _ _ Hperm2) in Hr2. lia.
Qed.

(** * Properties of the MVC classes and of the two [main]s *)

(** ** Strings and lines *)

Lemma string_app_assoc (s1 s2 s3 : string) :
  (s1 +:+ s2) +:+ s3 = s1 +:+ s2 +:+ s3.
Proof.
  induction s1 as [|a s1 IH]; [reflexivity|].
  change (String a ((s1 +:+ s2) +:+ s3) = String a (s1 +:+ s2 +:+ s3)).
  by rewrite IH.
Qed.

Lemma getline_spec input name rest :
  getline input = (name, rest) →
  (newline ∉ String.list_ascii_of_string name) ∧
  (input = name +:+ nl +:+ rest ∨
   input = name ∧ rest = "" ∧
   newline ∉ String.list_ascii_of_string input).
Proof.
  revert name rest. induction input as [|ch input IH]; intros name rest Hg.
  { simpl in Hg. injection Hg as <- <-. split; [apply not_elem_of_nil|].
    right. split; [done|]. split; [done|]. apply not_elem_of_nil. }
  simpl in Hg. destruct (decide (ch = newline)) as [->|Hch].
  { injection Hg as <- <-. split; [apply not_elem_of_nil|]. by left. }
  destruct (getline input) as [line rest'] eqn:Hrest.
  injection Hg as <- <-. destruct (IH _ _ eq_refl) as [Hline Hsplit].
  split.
  { simpl. apply not_elem_of_cons. split; [congruence|done]. }
  destruct Hsplit as [->|(-> & -> & Hnone)]; [by left|].
  right. split; [done|]. split; [done|].
  simpl. apply not_elem_of_cons. split; [congruence|done].
Qed.

(** ** Member calls through handles *)

Lemma receiver_deref T p w l :
  receiver T p w = Some l ↔
  p = ptr l ∧ ∃ o, deref (objects w) p = Some o ∧ obj_class o = T.
Proof.
  unfold receiver. destruct p as [|l']; simpl.
  { split; [done|]. by intros [? _]. }
  destruct (objects w !! l') as [o|]; simpl.
  - destruct (decide (obj_class o = T)) as [HT|HT].
    + split.
      * intros [= ->]. eauto.
      * intros [[= ->] _]. done.
    + split; [done|]. intros [_ (o' & [= <-] & HT')]. done.
  - split; [done|]. by intros [_ (o' & ? & _)].
Qed.

Lemma receiver_same_objects T p w w' :
  objects w' = objects w → receiver T p w' = receiver T p w.
Proof. unfold receiver. by intros ->. Qed.

Lemma Controller_run_effect model_ view_ logger_ w lm lv ll name rest :
  receiver Model model_ w = Some lm →
  receiver View view_ w = Some lv →
  receiver Logger logger_ w = Some ll →
  getline (cin (io w)) = (name, rest) →
  Controller_run model_ view_ logger_ w
  = Some (mkWorld (objects w) (<[lm := name]> (members w))
            (mkConsole rest
               (cout (io w) +:+ "[LOG]: Starting application..." +:+ nl +:+
                "Enter your name: " +:+ "Hello " +:+ name +:+ "!" +:+ nl +:+
                "[LOG]: Application finished." +:+ nl))).
Proof.
  intros Hm Hv Hl Hg. destruct w as [h ms [input out]]. simpl in *.
  unfold Controller_run, Logger_log, View_askForName, Model_setName,
    Model_getName, View_displayGreeting, with_io, write.
  rewrite Hl. simpl.
  rewrite (receiver_same_objects View view_
             (mkWorld h ms (mkConsole input out))), Hv by done.
  simpl.
  rewrite Hg. simpl.
  rewrite (receiver_same_objects Model model_
             (mkWorld h ms (mkConsole input out))), Hm by done.
  simpl.
  rewrite (receiver_same_objects Model model_
             (mkWorld h ms (mkConsole input out))), Hm by done.
  simpl.
  rewrite lookup_insert_eq. simpl.
  rewrite (receiver_same_objects View view_
             (mkWorld h ms (mkConsole input out))), Hv by done.
  simpl.
  rewrite (receiver_same_objects Logger logger_
             (mkWorld h ms (mkConsole input out))), Hl by done.
  simpl.
  by rewrite !string_app_assoc.
Qed.

(** ** The properties *)

(** X9.  [View::askForName] writes the prompt and reads one line: the name
    returned holds no newline, the input is the name, the newline that ended
    it and what is left to read, or, when the input holds no newline at all,
    the name is the whole input and nothing is left. *)
Theorem View_askForName_reads_one_line this w l :
  receiver View this w = Some l →
  ∃ name rest,
    View_askForName this w
    = Some (name,
            mkWorld (objects w) (members w)
              (mkConsole rest (cout (io w) +:+ "Enter your name: "))) ∧
    (newline ∉ String.list_ascii_of_string name) ∧
    (cin (io w) = name +:+ nl +:+ rest ∨
     cin (io w) = name ∧ rest = "" ∧
     newline ∉ String.list_ascii_of_string (cin (io w))).
Proof.
  intros Hv. unfold View_askForName. rewrite Hv. simpl.
  destruct (getline (cin (io w))) as [name rest] eqn:Hg.
  exists name, rest. split; [done|]. by apply getline_spec.
Qed.

(** X10.  [Controller::run] on valid handles: it logs the start, prompts,
    reads one line, stores it in the model, greets with exactly that line
    and logs the end; it allocates nothing and touches no other member. *)
Theorem Controller_run_greets_with_the_line_read
    model_ view_ logger_ w lm lv ll name rest :
  receiver Model model_ w = Some lm →
  receiver View view_ w = Some lv →
  receiver Logger logger_ w = Some ll →
  getline (cin (io w)) = (name, rest) →
  ∃ w', Controller_run model_ view_ logger_ w = Some w' ∧
    objects w' = objects w ∧
    members w' = <[lm := name]> (members w) ∧
    Model_getName model_ w' = Some name ∧
    cin (io w') = rest ∧
    cout (io w')
    = cout (io w) +:+ "[LOG]: Starting application..." +:+ nl +:+
      "Enter your name: " +:+ "Hello " +:+ name +:+ "!" +:+ nl +:+
      "[LOG]: Application finished." +:+ nl.
Proof.
  intros Hm Hv Hl Hg. eexists. split; [by eapply Controller_run_effect|].
  simpl. split; [done|]. split; [done|]. split; [|done].
  unfold Model_getName.
  rewrite (receiver_same_objects Model model_ w), Hm by done. simpl.
  by rewrite lookup_insert_eq.
Qed.

(** X12.  [Model::setName] followed by [Model::getName] through the same
    handle gives the name back; every other [Model] keeps its name, and
    neither the heap nor the console changes. *)
Theorem Model_setName_getName this name w l :
  receiver Model this w = Some l →
  ∃ w', Model_setName this name w = Some w' ∧
    Model_getName this w' = Some name ∧
    (∀ q, q ≠ this → Model_getName q w' = Model_getName q w) ∧
    objects w' = objects w ∧ io w' = io w.
Proof.
  intros Hm. unfold Model_setName. rewrite Hm. simpl. eexists.
  split; [done|]. split; [|split; [|done]].
  - unfold Model_getName.
    rewrite (receiver_same_objects Model this w), Hm by done. simpl.
    by rewrite lookup_insert_eq.
  - intros q Hq. unfold Model_getName.
    rewrite (receiver_same_objects Model q w) by done.
    destruct (receiver Model q w) as [lq|] eqn:Hlq; [|done]. simpl.
    rewrite lookup_insert_ne; [done|]. intros <-.
    apply receiver_deref in Hm as [-> _].
    apply receiver_deref in Hlq as [-> _]. done.
Qed.

(** X13.  The manually wired [main] runs to its end on every input: it
    prints its banner and the greeting for the first line of the input, and
    afterwards the [model] handle held by [main] itself carries that
    name, because the controller was given this very handle. *)
Theorem manual_main_greets input name rest :
  getline input = (name, rest) →
  ∃ logger model view w,
    manual_main input = Some (logger, model, view, w) ∧
    cout (io w)
    = "[LOG]: App Name: HelloApp - Manual DI" +:+ nl +:+
      "[LOG]: Starting application..." +:+ nl +:+
      "Enter your name: " +:+ "Hello " +:+ name +:+ "!" +:+ nl +:+
      "[LOG]: Application finished." +:+ nl ∧
    cin (io w) = rest ∧
    Model_getName model w = Some name.
Proof.
  intros Hg. unfold manual_main. simpl.
  erewrite Controller_run_effect; [|reflexivity..|exact Hg].
  simpl. do 4 eexists. split; [reflexivity|]. simpl.
  split; [|split; [done|]].
  - unfold write. simpl. reflexivity.
  - unfold Model_getName. simpl. by rewrite lookup_insert_eq.
Qed.

(** ** [main] of the custom-framework variant *)

Section MainProgram.

Variable type_name : cpp_type → string.
Variable arg_order : cpp_type → list cpp_type → list nat.

Hypothesis arg_order_perm :
  ∀ T Args, arg_order T Args ≡ₚ seq 0 (length Args).
Hypothesis names_distinct : NoDup (type_name <$> mvc_classes).

(** What the five [resolve] calls of [main] leave: the four objects resolved
    directly, then the controller's own three, then the controller. *)
Lemma main_Ret_shape fuel :
  ∃ hm lm lv ll,
    main type_name arg_order (S (S fuel))
    = Ret (mkHandles (ptr 0) (ptr 1) (ptr 2) (ptr 3) (ptr (length hm)),
           hm ++ [Object Controller [ptr lm; ptr lv; ptr ll]]) ∧
    [Object Configuration []; Object Logger []; Object Model [];
     Object View []] `prefix_of` hm ∧
    hm !! lm = Some (Object Model []) ∧
    hm !! lv = Some (Object View []) ∧
    hm !! ll = Some (Object Logger []) ∧
    4 ≤ lm ∧ 4 ≤ lv ∧ 4 ≤ ll.
Proof.
  pose proof (λ f T HT h, resolve_default type_name arg_order f
                (main_container type_name) T T h
                (main_container_simple type_name names_distinct T HT))
    as Hsimple.
  set (h4 := [Object Configuration []; Object Logger [];
              Object Model []; Object View []]).
  destruct (resolve_dependent_returns type_name arg_order
              (main_container type_name) Controller Controller
              [Model; View; Logger] (S fuel) h4
              (main_container_Controller type_name))
    as (pc & h & Hctrl).
  { intros D HD hD.
    rewrite Hsimple by (by apply controller_dependencies_simple). eauto. }
  destruct (resolve_dependent_Ret_inv type_name arg_order arg_order_perm
              _ _ _ _ _ _ _ _ (main_container_Controller type_name) Hctrl)
    as (hm & ps & -> & -> & Hlen & Hpre & Hpos).
  destruct ps as [|pm [|pv [|pl [|? ?]]]]; try done. clear Hlen.
  assert (∀ j D pj, [Model; View; Logger] !! j = Some D →
            [pm; pv; pl] !! j = Some pj →
            ∃ l, pj = ptr l ∧ 4 ≤ l ∧ hm !! l = Some (Object D []))
    as Hdep.
  { intros j D pj HD Hpj.
    destruct (Hpos j D HD) as (pj' & hj & hj' & Hpj' & Hrec & Hh1 & Hh2).
    rewrite Hpj in Hpj'. injection Hpj' as <-.
    rewrite Hsimple in Hrec
      by (by eapply controller_dependencies_simple, list_elem_of_lookup_2).
    injection Hrec as <- <-. exists (length hj). split; [done|].
    split; [by apply prefix_length in Hh1|].
    eapply prefix_lookup_Some; [|done]. by apply list_lookup_middle. }
  destruct (Hdep 0 Model pm eq_refl eq_refl) as (lm & -> & Hlm & Hm).
  destruct (Hdep 1 View pv eq_refl eq_refl) as (lv & -> & Hlv & Hv).
  destruct (Hdep 2 Logger pl eq_refl eq_refl) as (ll & -> & Hll & Hl).
  exists hm, lm, lv, ll. split; [|done].
  unfold main. cbv zeta.
  rewrite (Hsimple _ Configuration) by repeat constructor. rewrite bind_Ret.
  cbv beta iota. rewrite (Hsimple _ Logger) by repeat constructor.
  rewrite bind_Ret. cbv beta iota.
  rewrite (Hsimple _ Model) by repeat constructor. rewrite bind_Ret.
  cbv beta iota. rewrite (Hsimple _ View) by repeat constructor.
  rewrite bind_Ret. cbv beta iota.
  change (resolve type_name arg_order (S (S fuel))
            (main_container type_name) Controller h4
          ≫= (λ '(controller, h),
                Ret (mkHandles (ptr 0) (ptr 1) (ptr 2) (ptr 3) controller,
                     h)) = Ret (mkHandles (ptr 0) (ptr 1) (ptr 2) (ptr 3)
                                  (ptr (length hm)),
                                hm ++ [Object Controller
                                         [ptr lm; ptr lv; ptr ll]])).
  by rewrite Hctrl.
Qed.

(** X14.  The container-wired [main] runs to its end on every input, for
    every evaluation order and every [typeid] naming that tells the five
    classes apart: no exception, no undefined call.  It prints its banner
    and the greeting for the first line of the input.  The name is stored
    in the [Model] the controller was given by the container; the [model]
    handle that [main] resolved itself is another object and still has the
    empty name. *)
Theorem main_program_greets fuel input name rest :
  getline input = (name, rest) →
  ∃ hs w pm pv pl,
    main_program type_name arg_order (S (S fuel)) input = Ret (Some (hs, w)) ∧
    cout (io w)
    = "[LOG]: App Name: HelloApp - Custom DI Framework" +:+ nl +:+
      "[LOG]: Starting application..." +:+ nl +:+
      "Enter your name: " +:+ "Hello " +:+ name +:+ "!" +:+ nl +:+
      "[LOG]: Application finished." +:+ nl ∧
    cin (io w) = rest ∧
    deref (objects w) (controller hs) = Some (Object Controller [pm; pv; pl]) ∧
    Model_getName pm w = Some name ∧
    Model_getName (model hs) w = Some "".
Proof.
  intros Hg.
  destruct (main_Ret_shape fuel)
    as (hm & lm & lv & ll & Hmain & Hpre & Hm & Hv & Hl & Hlm & Hlv & Hll).
  set (h := hm ++ [Object Controller [ptr lm; ptr lv; ptr ll]]) in *.
  assert (∀ l o, hm !! l = Some o → h !! l = Some o) as Hin.
  { intros l o Hlo. by apply lookup_app_l_Some. }
  assert (∀ l o, [Object Configuration []; Object Logger [];
                  Object Model []; Object View []] !! l = Some o →
                 h !! l = Some o) as Hin4.
  { intros l o Hlo. apply Hin. by eapply prefix_lookup_Some. }
  assert (h !! length hm
          = Some (Object Controller [ptr lm; ptr lv; ptr ll])) as Hc
    by (by apply list_lookup_middle).
  apply Hin in Hm, Hv, Hl.
  assert (∀ w l T args, objects w = h → h !! l = Some (Object T args) →
                        receiver T (ptr l) w = Some l) as Hrecv.
  { intros w l T args Hw Hlo. apply receiver_deref. split; [done|].
    exists (Object T args). by rewrite Hw. }
  set (w0 := mkWorld h ∅ (mkConsole input "")).
  set (w1 := with_io
               (λ io, write nl
                        (write ("App Name: " +:+ "HelloApp" +:+
                                " - Custom DI Framework")
                           (write "[LOG]: " io))) w0).
  assert (Configuration_app_name (ptr 0) w0 = Some "HelloApp") as Hcfg.
  { unfold Configuration_app_name.
    by rewrite (Hrecv w0 0 Configuration [] eq_refl (Hin4 0 _ eq_refl)). }
  assert (∀ msg, Logger_log (ptr 1) msg w0
                 = Some (with_io (λ io, write nl (write msg
                                                    (write "[LOG]: " io)))
                           w0)) as Hlog.
  { intros msg. unfold Logger_log.
    by rewrite (Hrecv w0 1 Logger [] eq_refl (Hin4 1 _ eq_refl)). }
  assert (Controller_run_at (ptr (length hm)) w1
          = Controller_run (ptr lm) (ptr lv) (ptr ll) w1) as Hat.
  { unfold Controller_run_at.
    rewrite (Hrecv w1 _ _ _ eq_refl Hc). simpl. unfold heap.
    by rewrite Hc. }
  pose proof (Controller_run_effect (ptr lm) (ptr lv) (ptr ll) w1
                lm lv ll name rest
                (Hrecv w1 _ _ _ eq_refl Hm) (Hrecv w1 _ _ _ eq_refl Hv)
                (Hrecv w1 _ _ _ eq_refl Hl) Hg) as Hrun.
  eexists _, _, (ptr lm), (ptr lv), (ptr ll). split.
  { unfold main_program. rewrite Hmain, bind_Ret. cbv beta iota zeta.
    cbn [config logger controller]. fold w0. rewrite Hcfg. simpl.
    rewrite Hlog. simpl. fold w1. rewrite Hat, Hrun. reflexivity. }
  cbn [io cout cin objects controller model deref].
  split.
  { unfold w1, w0, with_io, write. cbn [io cout cin].
    rewrite !string_app_assoc. reflexivity. }
  split; [done|].
  split; [done|]. split.
  - unfold Model_getName.
    erewrite Hrecv; [|reflexivity|exact Hm]. simpl.
    by rewrite lookup_insert_eq.
  - unfold Model_getName.
    erewrite Hrecv; [|reflexivity|exact (Hin4 2 _ eq_refl)]. simpl.
    rewrite lookup_insert_ne by lia. by rewrite lookup_empty.
Qed.

End MainProgram.

(** ** Instances of the further properties *)

Lemma resolve_keeps_existing_objects_witness :
  [Object Logger []] `prefix_of` [Object Logger []; Object Model []] ∧
  (∀ q o, deref [Object Logger []] q = Some o →
          deref [Object Logger []; Object Model []] q = Some o) ∧
  deref [Object Logger []] (ptr 1) = None.
Proof.
  apply (resolve_keeps_existing_objects typeid_name left_to_right 1
           (main_container typeid_name) Model [Object Logger []] (ptr 1)
           [Object Logger []; Object Model []]).
  reflexivity.
Defined.

Lemma not_registered_error_has_unregistered_origin_witness :
  resolve typeid_name left_to_right 2 container_without_logger Controller []
    = Throw (runtime_error "Type not registered in DI container.") ∧
  ∃ U, reachable typeid_name container_without_logger Controller U ∧
       creators_ container_without_logger !! typeid_name U = None.
Proof.
  split; [reflexivity|].
  apply (not_registered_error_has_unregistered_origin typeid_name
           left_to_right 2 container_without_logger Controller []).
  reflexivity.
Defined.

Lemma resolve_returns_iff_registered_and_acyclic_witness :
  ∃ p h',
    resolve typeid_name right_to_left
      (S (size (creators_ (main_container typeid_name))))
      (main_container typeid_name) Controller [] = Ret (p, h').
Proof.
  apply (resolve_returns_iff_registered_and_acyclic typeid_name right_to_left
           right_to_left_perm (main_container typeid_name) Controller []).
  split.
  - apply (deps_registered_dependent typeid_name _ Controller Controller
             [Model; View; Logger]); [reflexivity|].
    apply main_container_deps_registered.
  - apply main_container_acyclic.
Defined.

Lemma resolve_builds_one_object_per_dependency_path_witness :
  length [Object (class_ "Bottom") []; Object (class_ "Left") [ptr 0];
          Object (class_ "Bottom") []; Object (class_ "Right") [ptr 2];
          Object (class_ "Top") [ptr 1; ptr 3]]
  = length ([] : heap cpp_type)
    + objects_built typeid_name 3 diamond (class_ "Top").
Proof.
  apply (resolve_builds_one_object_per_dependency_path typeid_name
           left_to_right left_to_right_perm 3 diamond (class_ "Top") []
           (ptr 4)).
  reflexivity.
Defined.

Lemma diamond_constructed : constructed typeid_name diamond.
Proof. repeat constructor. Qed.

Lemma resolved_dependencies_have_declared_keys_witness :
  ∃ o,
    deref [Object (class_ "Bottom") []; Object (class_ "Left") [ptr 0];
           Object (class_ "Bottom") []; Object (class_ "Right") [ptr 2];
           Object (class_ "Top") [ptr 1; ptr 3]] (ptr 4) = Some o ∧
    Forall2
      (λ q D, ∃ oq,
         deref [Object (class_ "Bottom") []; Object (class_ "Left") [ptr 0];
                Object (class_ "Bottom") []; Object (class_ "Right") [ptr 2];
                Object (class_ "Top") [ptr 1; ptr 3]] q = Some oq ∧
         typeid_name (obj_class oq) = typeid_name D)
      (obj_ctor_args o) [class_ "Left"; class_ "Right"].
Proof.
  apply (resolved_dependencies_have_declared_keys typeid_name left_to_right
           left_to_right_perm 3 diamond (class_ "Top")
           (dependent_creator (class_ "Top") [class_ "Left"; class_ "Right"])
           [] (ptr 4)).
  - apply diamond_constructed.
  - reflexivity.
  - reflexivity.
Defined.

Lemma registration_order_is_irrelevant_witness :
  apply_registrations typeid_name
    [register_simple Logger; register_simple Model; register_simple View;
     register_with_dependencies Controller [Model; View; Logger]]
    empty_container
  = apply_registrations typeid_name
      [register_with_dependencies Controller [Model; View; Logger];
       register_simple View; register_simple Model; register_simple Logger]
      empty_container.
Proof.
  apply (registration_order_is_irrelevant typeid_name).
  - compute_done.
  - symmetry. apply (reverse_Permutation
      [register_simple Logger; register_simple Model; register_simple View;
       register_with_dependencies Controller [Model; View; Logger]]).
Defined.

Lemma registering_new_key_keeps_resolutions_witness :
  resolve typeid_name left_to_right 1
    (apply_registration typeid_name
       (registerType typeid_name Logger empty_container)
       (register_with_dependencies Controller [Model; View; Logger]))
    Logger []
  = Ret (ptr 0, [Object Logger []]).
Proof.
  apply (registering_new_key_keeps_resolutions typeid_name left_to_right
           (register_with_dependencies Controller [Model; View; Logger])
           (registerType typeid_name Logger empty_container) 1 Logger []).
  - reflexivity.
  - reflexivity.
Defined.

Lemma resolve_success_independent_of_order_and_heap_witness :
  ∃ p2 h2',
    resolve typeid_name right_to_left 2 (main_container typeid_name)
      Controller [Object View []] = Ret (p2, h2') ∧
    length h2' - length [Object View []]
    = length [Object Model []; Object View []; Object Logger [];
              Object Controller [ptr 0; ptr 1; ptr 2]]
      - length ([] : heap cpp_type).
Proof.
  apply (resolve_success_independent_of_order_and_heap typeid_name
           left_to_right right_to_left (main_container typeid_name) 2
           Controller [] (ptr 3)).
  - apply (@left_to_right_perm cpp_type).
  - apply (@right_to_left_perm cpp_type).
  - reflexivity.
Defined.

(** A heap with one object of each of [Model], [View] and [Logger], and
    ["Ada"] followed by a second line on the input. *)
Lemma View_askForName_reads_one_line_witness :
  let w := mkWorld [Object Model []; Object View []; Object Logger []] ∅
             (mkConsole ("Ada" +:+ nl +:+ "Grace") "") in
  ∃ name rest,
    View_askForName (ptr 1) w
    = Some (name,
            mkWorld (objects w) (members w)
              (mkConsole rest (cout (io w) +:+ "Enter your name: "))) ∧
    (newline ∉ String.list_ascii_of_string name) ∧
    (cin (io w) = name +:+ nl +:+ rest ∨
     cin (io w) = name ∧ rest = "" ∧
     newline ∉ String.list_ascii_of_string (cin (io w))).
Proof.
  intros w. apply (View_askForName_reads_one_line (ptr 1) w 1). reflexivity.
Defined.

Lemma Controller_run_greets_with_the_line_read_witness :
  let w := mkWorld [Object Model []; Object View []; Object Logger []] ∅
             (mkConsole ("Ada" +:+ nl +:+ "Grace") "") in
  ∃ w', Controller_run (ptr 0) (ptr 1) (ptr 2) w = Some w' ∧
    objects w' = objects w ∧
    members w' = <[0 := "Ada"]> (members w) ∧
    Model_getName (ptr 0) w' = Some "Ada" ∧
    cin (io w') = "Grace" ∧
    cout (io w')
    = cout (io w) +:+ "[LOG]: Starting application..." +:+ nl +:+
      "Enter your name: " +:+ "Hello " +:+ "Ada" +:+ "!" +:+ nl +:+
      "[LOG]: Application finished." +:+ nl.
Proof.
  intros w.
  apply (Controller_run_greets_with_the_line_read (ptr 0) (ptr 1) (ptr 2) w
           0 1 2 "Ada" "Grace"); reflexivity.
Defined.

Lemma Model_setName_getName_witness :
  let w := mkWorld [Object Model []; Object Model []] ∅ (mkConsole "" "") in
  ∃ w', Model_setName (ptr 0) "Ada" w = Some w' ∧
    Model_getName (ptr 0) w' = Some "Ada" ∧
    (∀ q, q ≠ ptr 0 → Model_getName q w' = Model_getName q w) ∧
    objects w' = objects w ∧ io w' = io w.
Proof.
  intros w. apply (Model_setName_getName (ptr 0) "Ada" w 0). reflexivity.
Defined.

Lemma manual_main_greets_witness :
  ∃ logger model view w,
    manual_main ("Ada" +:+ nl +:+ "Grace") = Some (logger, model, view, w) ∧
    cout (io w)
    = "[LOG]: App Name: HelloApp - Manual DI" +:+ nl +:+
      "[LOG]: Starting application..." +:+ nl +:+
      "Enter your name: " +:+ "Hello " +:+ "Ada" +:+ "!" +:+ nl +:+
      "[LOG]: Application finished." +:+ nl ∧
    cin (io w) = "Grace" ∧
    Model_getName model w = Some "Ada".
Proof.
  apply (manual_main_greets ("Ada" +:+ nl +:+ "Grace") "Ada" "Grace").
  reflexivity.
Defined.

Lemma main_program_greets_witness :
  ∃ hs w pm pv pl,
    main_program typeid_name right_to_left 2 ("Ada" +:+ nl +:+ "Grace")
    = Ret (Some (hs, w)) ∧
    cout (io w)
    = "[LOG]: App Name: HelloApp - Custom DI Framework" +:+ nl +:+
      "[LOG]: Starting application..." +:+ nl +:+
      "Enter your name: " +:+ "Hello " +:+ "Ada" +:+ "!" +:+ nl +:+
      "[LOG]: Application finished." +:+ nl ∧
    cin (io w) = "Grace" ∧
    deref (objects w) (controller hs)
    = Some (Object Controller [pm; pv; pl]) ∧
    Model_getName pm w = Some "Ada" ∧
    Model_getName (model hs) w = Some "".
Proof.
  apply (main_program_greets typeid_name right_to_left right_to_left_perm).
  - compute_done.
  - reflexivity.
Defined.
